(** * portfolio-blog: the cdata bridge and the thumbnail script

    A shallow embedding of [src/scripts/cdata_bridge.py] and of the
    density loop of [src/generate_thumbnail.py].

    - Python dictionaries are finite maps ([gmap string pyval]); dictionary
      _objects_ live in a store and are referred to by location, so that
      [record.data.copy()] and the item assignments that follow it are
      modelled with their aliasing.
    - The cdata framework ([get_registry], [SourceConfig], the registry's
      [create_source], a source's [fetch]) and the system clock are not part
      of the repository: they are the operations of a type class, each free
      to raise.
    - Methods are computations in a state-and-exception monad.  Every call
      that leaves the module is appended to a trace.
    - The thumbnail script computes in binary64, embedded with the kernel's
      primitive floats. *)

From Stdlib Require Import PrimFloat Uint63 NArith Ascii.
From Stdlib Require Import SpecFloat FloatOps FloatAxioms.
From stdpp Require Import gmap strings list fin_maps.

Set Default Proof Using "Type".
#[local] Set Warnings "-clear-no-such-hyp".

(** ** Python values *)

#[local] Set Warnings "-register-all".
Inductive pyval : Type :=
  | PyNone
  | PyBool (b : bool)
  | PyInt (z : Z)
  | PyStr (s : string)
  | PyList (l : list pyval)
  | PyDict (kvs : list (string * pyval)).

(** The contents of a dictionary with string keys. *)
Abbreviation pydict := (gmap string pyval).

(** Object identity. *)
Abbreviation loc := nat.

(** The store of dictionary objects. *)
Abbreviation pyheap := (gmap loc (gmap string pyval)).

(** What a call produces: a value, or a raised exception. *)
Inductive outcome (E A : Type) : Type :=
  | Ok (a : A)
  | Raise (e : E).
Arguments Ok {E A} a.
Arguments Raise {E A} e.

Definition raised {E A} (o : outcome E A) : option E :=
  match o with Ok _ => None | Raise e => Some e end.

(** ** [datetime] and [datetime.isoformat] *)

Module Datetime.

Definition is_leap (y : N) : bool :=
  ((y mod 4 =? 0) && (negb (y mod 100 =? 0) || (y mod 400 =? 0)))%N.

Definition days_in_month (y m : N) : N :=
  (if m =? 2 then (if is_leap y then 29 else 28)
   else if (m =? 4) || (m =? 6) || (m =? 9) || (m =? 11) then 30
   else 31)%N.

(** The range checks of the [datetime] constructor. *)
Definition fields_ok (y mo d h mi s us : N) : bool :=
  ((1 <=? y) && (y <=? 9999) && (1 <=? mo) && (mo <=? 12)
   && (1 <=? d) && (d <=? days_in_month y mo)
   && (h <? 24) && (mi <? 60) && (s <? 60) && (us <? 1000000))%N.

(** A naive [datetime] object: the fields together with the fact that the
    constructor accepted them. *)
Record datetime : Type := mk {
  year : N; month : N; day : N;
  hour : N; minute : N; second : N; microsecond : N;
  in_range : fields_ok year month day hour minute second microsecond = true
}.

Definition digit (n : N) : ascii := ascii_of_N (48 + n mod 10).

(** Decimal digits of [n], most significant first. *)
Fixpoint digits (fuel : nat) (n : N) : string :=
  match fuel with
  | O => ""
  | S fuel' =>
      if (n <? 10)%N then String (digit n) ""
      else digits fuel' (n / 10) +:+ String (digit n) ""
  end.

(** [str(n)] *)
Definition decimal (n : N) : string := digits (S (N.size_nat n)) n.

Fixpoint zeros (k : nat) : string :=
  match k with O => "" | S k' => String "0"%char (zeros k') end.

(** ["%0wd" % n] *)
Definition fmt_d (w : nat) (n : N) : string :=
  let s := decimal n in zeros (w - String.length s) +:+ s.

(** [datetime.isoformat()] with the default separator and time spec: the
    microseconds are printed only when they are not zero, and a naive
    datetime has no offset suffix. *)
Definition isoformat (t : datetime) : string :=
  fmt_d 4 (year t) +:+ "-" +:+ fmt_d 2 (month t) +:+ "-" +:+ fmt_d 2 (day t)
  +:+ "T" +:+ fmt_d 2 (hour t) +:+ ":" +:+ fmt_d 2 (minute t)
  +:+ ":" +:+ fmt_d 2 (second t)
  +:+ (if (microsecond t =? 0)%N then "" else "." +:+ fmt_d 6 (microsecond t)).

(** *** The syntax of a timestamp

    [YYYY-MM-DDTHH:MM:SS], optionally followed by [.ffffff]. *)

Definition is_digit (c : ascii) : bool :=
  let n := N_of_ascii c in ((48 <=? n) && (n <=? 57))%N.

Fixpoint eat_digits (k : nat) (s : string) : option string :=
  match k with
  | O => Some s
  | S k' =>
      match s with
      | String c s' => if is_digit c then eat_digits k' s' else None
      | EmptyString => None
      end
  end.

Definition eat_char (c : ascii) (s : string) : option string :=
  match s with
  | String c' s' => if Ascii.eqb c c' then Some s' else None
  | EmptyString => None
  end.

Inductive token : Type :=
  | Digits (k : nat)
  | Char (c : ascii).

Definition eat (t : token) (s : string) : option string :=
  match t with
  | Digits k => eat_digits k s
  | Char c => eat_char c s
  end.

Fixpoint eat_all (ts : list token) (s : string) : option string :=
  match ts with
  | [] => Some s
  | t :: ts' =>
      match eat t s with
      | Some s' => eat_all ts' s'
      | None => None
      end
  end.

Definition date_time_tokens : list token :=
  [Digits 4; Char "-"; Digits 2; Char "-"; Digits 2; Char "T";
   Digits 2; Char ":"; Digits 2; Char ":"; Digits 2].

Definition fraction_tokens : list token := [Char "."; Digits 6].

Definition timestamp_syntax (s : string) : bool :=
  match eat_all date_time_tokens s with
  | Some EmptyString => true
  | Some rest =>
      match eat_all fraction_tokens rest with
      | Some EmptyString => true
      | _ => false
      end
  | None => false
  end.

End Datetime.

Abbreviation datetime := Datetime.datetime.

(** ** [pandas.DataFrame]

    A table is its set of column labels and its rows, in order; a cell that
    a row has no value for (NaN in pandas) is a key the row lacks.  The
    order of the columns is not modelled. *)

Record DataFrame : Type := mkDataFrame {
  columns : gset string;
  rows : list (gmap string pyval)
}.

(** [pd.DataFrame(data)] for a list of dictionaries: one row per
    dictionary, the columns are the union of their keys.  [pd.DataFrame()]
    is the same table as [pd.DataFrame([])]. *)
Definition pd_DataFrame (data : list (gmap string pyval)) : DataFrame :=
  {| columns := ⋃ (dom <$> data); rows := data |}.

Definition n_rows (df : DataFrame) : nat := length (rows df).
Definition n_columns (df : DataFrame) : nat := size (columns df).

(** The value in row [i], column [c]. *)
Definition cell (df : DataFrame) (i : nat) (c : string) : option pyval :=
  rows df !! i ≫= (.!! c).

(** ** The boundary with the cdata framework and the clock *)

(** One fetched record: [record.data] refers to a dictionary object. *)
Record PyRecord : Type := mkRecord { data : loc }.

(** What [source.fetch] returns. *)
Record FetchResult : Type := mkFetchResult { records : list PyRecord }.

(** The keyword arguments of the [SourceConfig] constructor. *)
Module SourceConfig.
Record kwargs : Type := mk {
  id : string;
  name : string;
  type : string;
  config : gmap string pyval;
  primary_keys : list string;
  incremental : bool
}.
End SourceConfig.

(** Everything the bridge calls and does not define.  [World] is whatever
    these calls depend on and change (network, registry contents, time).
    A fetch also sees the store: it creates the dictionaries of the records
    it returns, and a record it returns refers to a dictionary that exists
    (a Python reference never dangles). *)
Class Environment : Type := {
  World : Type;
  Registry : Type;
  Config : Type;
  Source : Type;
  exn : Type;
  get_registry : World → outcome exn Registry * World;
  SourceConfig_new : SourceConfig.kwargs → World → outcome exn Config * World;
  create_source : Registry → Config → World → outcome exn Source * World;
  source_fetch :
    Source → gmap string pyval → World * gmap loc (gmap string pyval) →
    outcome exn FetchResult * (World * gmap loc (gmap string pyval));
  utcnow : World → datetime * World;
  source_fetch_allocated :
    ∀ src params w h result w' h',
      source_fetch src params (w, h) = (Ok result, (w', h')) →
      ∀ r, r ∈ records result → is_Some (h' !! data r)
}.

Section Model.
Context `{Env : Environment}.

(** A call that leaves the module, with the exception it raised, if any. *)
Inductive event : Type :=
  | SourceConfigCall (kw : SourceConfig.kwargs) (exc : option exn)
  | GetRegistryCall (exc : option exn)
  | CreateSourceCall (reg : Registry) (cfg : Config) (exc : option exn)
  | FetchCall (src : Source) (params : gmap string pyval) (exc : option exn)
  | UtcnowCall (t : datetime).

Definition event_exc (ev : event) : option exn :=
  match ev with
  | SourceConfigCall _ exc | GetRegistryCall exc
  | CreateSourceCall _ _ exc | FetchCall _ _ exc => exc
  | UtcnowCall _ => None
  end.

Definition is_create_source (ev : event) : bool :=
  match ev with CreateSourceCall _ _ _ => true | _ => false end.

Definition is_fetch (ev : event) : bool :=
  match ev with FetchCall _ _ _ => true | _ => false end.

Definition is_utcnow (ev : event) : bool :=
  match ev with UtcnowCall _ => true | _ => false end.

(** An instance of [CDataBridge]. *)
Record CDataBridge : Type := mkCDataBridge { _registry : option Registry }.

(** The state of the process. *)
Record state : Type := State {
  heap : gmap loc (gmap string pyval);   (* dictionary objects *)
  bridges : gmap loc CDataBridge;        (* CDataBridge objects *)
  _bridge : option loc;                  (* the module global *)
  world : World;
  trace : list event
}.

(** *** The monad of methods *)

Definition M (A : Type) : Type := state → outcome exn A * state.

#[global] Instance M_ret : MRet M := λ A a σ, (Ok a, σ).

#[global] Instance M_bind : MBind M := λ A B k m σ,
  match m σ with
  | (Ok a, σ') => k a σ'
  | (Raise e, σ') => (Raise e, σ')
  end.

Definition set_heap (h : gmap loc (gmap string pyval)) (σ : state) : state :=
  State h (bridges σ) (_bridge σ) (world σ) (trace σ).
Definition set_bridges (b : gmap loc CDataBridge) (σ : state) : state :=
  State (heap σ) b (_bridge σ) (world σ) (trace σ).
Definition set__bridge (g : option loc) (σ : state) : state :=
  State (heap σ) (bridges σ) g (world σ) (trace σ).

Definition gets {A} (f : state → A) : M A := λ σ, (Ok (f σ), σ).
Definition modify (f : state → state) : M unit := λ σ, (Ok (), f σ).

(** An external call: the world moves on, the call is logged. *)
Definition external {A} (call : World → outcome exn A * World)
    (log : option exn → event) : M A := λ σ,
  let '(o, w) := call (world σ) in
  (o, State (heap σ) (bridges σ) (_bridge σ) w (trace σ ++ [log (raised o)])).

Definition call_SourceConfig (kw : SourceConfig.kwargs) : M Config :=
  external (SourceConfig_new kw) (SourceConfigCall kw).

Definition call_get_registry : M Registry :=
  external get_registry GetRegistryCall.

Definition call_create_source (reg : Registry) (cfg : Config) : M Source :=
  external (create_source reg cfg) (CreateSourceCall reg cfg).

Definition call_fetch (src : Source) (params : gmap string pyval)
    : M FetchResult := λ σ,
  let '(o, (w, h)) := source_fetch src params (world σ, heap σ) in
  (o, State h (bridges σ) (_bridge σ) w
        (trace σ ++ [FetchCall src params (raised o)])).

(** [datetime.utcnow()] *)
Definition datetime_utcnow : M datetime := λ σ,
  let '(t, w) := utcnow (world σ) in
  (Ok t, State (heap σ) (bridges σ) (_bridge σ) w (trace σ ++ [UtcnowCall t])).

(** *** Dictionary objects *)

(** The contents of the dictionary at [l].  A location that holds no
    dictionary reads as the empty one; the locations that the code
    dereferences are those of fetched records and of its own copies, which
    always hold one ([source_fetch_allocated]). *)
Definition deref (h : gmap loc (gmap string pyval)) (l : loc)
    : gmap string pyval := default ∅ (h !! l).

(** [d.copy()]: a new object with the same contents. *)
Definition dict_copy (l : loc) : M loc := λ σ,
  let l' := fresh (dom (heap σ)) in
  (Ok l', set_heap (<[l' := deref (heap σ) l]> (heap σ)) σ).

(** [d[k] = v], in place. *)
Definition dict_setitem (l : loc) (k : string) (v : pyval) : M unit := λ σ,
  (Ok (), set_heap (<[l := <[k := v]> (deref (heap σ) l)]> (heap σ)) σ).

(** [for x in xs: acc = body(acc, x)] *)
Fixpoint for_each {A B} (body : B → A → M B) (xs : list A) (acc : B) : M B :=
  match xs with
  | [] => mret acc
  | x :: xs' => acc' ← body acc x; for_each body xs' acc'
  end.

(** *** class CDataBridge *)

(** [CDataBridge()] *)
Definition CDataBridge_new : M loc := λ σ,
  let self := fresh (dom (bridges σ)) in
  (Ok self, set_bridges (<[self := mkCDataBridge None]> (bridges σ)) σ).

(** The [registry] property. *)
Definition registry (self : loc) : M Registry :=
  cached ← gets (λ σ, bridges σ !! self ≫= _registry);
  match cached with
  | Some reg => mret reg
  | None =>
      reg ← call_get_registry;
      modify (λ σ,
        set_bridges (<[self := mkCDataBridge (Some reg)]> (bridges σ)) σ);;
      mret reg
  end.

Definition _create_source_config (self : loc) (source_id source_type : string)
    (config : gmap string pyval) (primary_keys : list string)
    (incremental : bool) : M Config :=
  call_SourceConfig
    {| SourceConfig.id := source_id;
       SourceConfig.name := source_id;
       SourceConfig.type := source_type;
       SourceConfig.config := config;
       SourceConfig.primary_keys := primary_keys;
       SourceConfig.incremental := incremental |}.

(** The body of the loop over [result.records]. *)
Definition add_metadata (source_id : string) (data_rows : list loc)
    (record : PyRecord) : M (list loc) :=
  row ← dict_copy (data record);
  dict_setitem row "_source_id" (PyStr source_id);;
  now ← datetime_utcnow;
  dict_setitem row "_fetched_at" (PyStr (Datetime.isoformat now));;
  mret (data_rows ++ [row]).

Definition _fetch_with_config (self : loc) (source_id source_type : string)
    (config : gmap string pyval) (primary_keys : list string)
    (incremental : bool) (fetch_kwargs : gmap string pyval) : M DataFrame :=
  source_config ←
    _create_source_config self source_id source_type config primary_keys
      incremental;
  reg ← registry self;
  source ← call_create_source reg source_config;
  let fetch_params := fetch_kwargs ∪ config in
  result ← call_fetch source fetch_params;
  match records result with
  | [] => mret (pd_DataFrame [])
  | _ =>
      data_rows ← for_each (add_metadata source_id) (records result) [];
      contents ← gets (λ σ, deref (heap σ) <$> data_rows);
      mret (pd_DataFrame contents)
  end.

Definition fetch_yfinance_data (self : loc) (source_id : string)
    (symbols : pyval) (period interval : option pyval) : M DataFrame :=
  let period := default (PyStr "1y") period in
  let interval := default (PyStr "1d") interval in
  _fetch_with_config self source_id "yfinance"
    (<["interval" := interval]> (<["period" := period]>
       (<["symbols" := symbols]> ∅)))
    ["symbol"; "date"] true ∅.

Definition fetch_rss_data (self : loc) (source_id : string) (feeds : pyval)
    : M DataFrame :=
  _fetch_with_config self source_id "rss" (<["feeds" := feeds]> ∅)
    ["id"] false ∅.

Definition fetch_fred_data (self : loc) (source_id : string) (series : pyval)
    : M DataFrame :=
  _fetch_with_config self source_id "fred" (<["series" := series]> ∅)
    ["series_id"; "date"] true ∅.

Definition fetch_bls_data (self : loc) (source_id : string) (series : pyval)
    : M DataFrame :=
  _fetch_with_config self source_id "bls" (<["series" := series]> ∅)
    ["series_id"; "date"] true ∅.

Definition fetch_fed_stress_data (self : loc) (source_id : string)
    (years scenarios : pyval) : M DataFrame :=
  _fetch_with_config self source_id "fed_stress"
    (<["scenarios" := scenarios]> (<["years" := years]> ∅))
    ["year"; "table"; "date"] false ∅.

(** *** Module level *)

Definition get_bridge : M loc :=
  g ← gets _bridge;
  match g with
  | None =>
      b ← CDataBridge_new;
      modify (set__bridge (Some b));;
      mret b
  | Some b => mret b
  end.

Definition fetch_data (source_id source_type : string)
    (config : gmap string pyval) (primary_keys : list string)
    (incremental : bool) : M DataFrame :=
  bridge ← get_bridge;
  _fetch_with_config bridge source_id source_type config primary_keys
    incremental ∅.

(** *** The two halves of [_fetch_with_config]

    [acquire] is the function up to and including [source.fetch(...)];
    [reshape] is the conversion of the result that follows. *)

Definition acquire (self : loc) (source_id source_type : string)
    (config : gmap string pyval) (primary_keys : list string)
    (incremental : bool) (fetch_kwargs : gmap string pyval) : M FetchResult :=
  source_config ←
    _create_source_config self source_id source_type config primary_keys
      incremental;
  reg ← registry self;
  source ← call_create_source reg source_config;
  call_fetch source (fetch_kwargs ∪ config).

Definition reshape (source_id : string) (result : FetchResult) : M DataFrame :=
  match records result with
  | [] => mret (pd_DataFrame [])
  | _ =>
      data_rows ← for_each (add_metadata source_id) (records result) [];
      contents ← gets (λ σ, deref (heap σ) <$> data_rows);
      mret (pd_DataFrame contents)
  end.

(** *** What the loop computes, as a function *)

(** [n] successive readings of the clock. *)
Fixpoint read_clock (n : nat) (w : World) : list datetime * World :=
  match n with
  | O => ([], w)
  | S n' =>
      let '(t, w') := utcnow w in
      let '(ts, w'') := read_clock n' w' in
      (t :: ts, w'')
  end.

(** A record's fields with the two metadata fields assigned. *)
Definition stamp (source_id : string) (t : datetime) (d : gmap string pyval)
    : gmap string pyval :=
  <["_fetched_at" := PyStr (Datetime.isoformat t)]>
    (<["_source_id" := PyStr source_id]> d).

(** The fields of the records of a result, in order. *)
Definition record_fields (h : gmap loc (gmap string pyval))
    (result : FetchResult) : list (gmap string pyval) :=
  (λ r, deref h (data r)) <$> records result.

(** The rows of the table, from the result of the fetch and the state in
    which the fetch returned it. *)
Definition stamped_rows (source_id : string) (σ : state)
    (result : FetchResult) : list (gmap string pyval) :=
  zip_with (stamp source_id)
    (read_clock (length (records result)) (world σ)).1
    (record_fields (heap σ) result).

(** The external calls of [acquire], in order, with the exception that
    ended it, if any: the constructor of the configuration, [get_registry]
    when the bridge has not cached the registry yet, [create_source],
    [fetch]. *)
Inductive registry_events : list event → Prop :=
  | re_cached : registry_events []
  | re_loaded : registry_events [GetRegistryCall None].

Inductive acquire_events (kw : SourceConfig.kwargs)
    (params : gmap string pyval) : list event → option exn → Prop :=
  | ae_config e :
      acquire_events kw params [SourceConfigCall kw (Some e)] (Some e)
  | ae_registry e :
      acquire_events kw params
        [SourceConfigCall kw None; GetRegistryCall (Some e)] (Some e)
  | ae_create regs reg cfg e :
      registry_events regs →
      acquire_events kw params
        (SourceConfigCall kw None :: regs ++ [CreateSourceCall reg cfg (Some e)])
        (Some e)
  | ae_fetch regs reg cfg src exc :
      registry_events regs →
      acquire_events kw params
        (SourceConfigCall kw None
           :: regs ++ [CreateSourceCall reg cfg None; FetchCall src params exc])
        exc.

(** The names of the two added columns. *)
Definition metadata_columns : gset string := {["_source_id"; "_fetched_at"]}.

(** The events a computation appended to the trace. *)
Definition new_events (σ σ' : state) : list event :=
  drop (length (trace σ)) (trace σ').

(** *** The convenience methods, as the specification words them

    Each fixes the tag of its source kind and the shape of the parameter
    mapping, and forwards to the generic path. *)

Inductive source_kind : Type :=
  | PriceHistory | Feed | MacroSeries | LaborSeries | StressTest.

Definition kind_tag (k : source_kind) : string :=
  match k with
  | PriceHistory => "yfinance"
  | Feed => "rss"
  | MacroSeries => "fred"
  | LaborSeries => "bls"
  | StressTest => "fed_stress"
  end.

(** A call of a convenience method with its arguments; an optional
    argument that is left out is [None]. *)
Inductive convenience_call : Type :=
  | YFinance (symbols : pyval) (period interval : option pyval)
  | Rss (feeds : pyval)
  | Fred (series : pyval)
  | Bls (series : pyval)
  | FedStress (years scenarios : pyval).

Definition call_kind (c : convenience_call) : source_kind :=
  match c with
  | YFinance _ _ _ => PriceHistory
  | Rss _ => Feed
  | Fred _ => MacroSeries
  | Bls _ => LaborSeries
  | FedStress _ _ => StressTest
  end.

(** The parameter mapping built from the arguments. *)
Definition call_mapping (c : convenience_call) : gmap string pyval :=
  match c with
  | YFinance symbols period interval =>
      list_to_map
        [("symbols", symbols);
         ("period", default (PyStr "1y") period);
         ("interval", default (PyStr "1d") interval)]
  | Rss feeds => list_to_map [("feeds", feeds)]
  | Fred series | Bls series => list_to_map [("series", series)]
  | FedStress years scenarios =>
      list_to_map [("years", years); ("scenarios", scenarios)]
  end.

(** The key columns and the incremental flag declared for each kind. *)
Definition kind_primary_keys (k : source_kind) : list string :=
  match k with
  | PriceHistory => ["symbol"; "date"]
  | Feed => ["id"]
  | MacroSeries | LaborSeries => ["series_id"; "date"]
  | StressTest => ["year"; "table"; "date"]
  end.

Definition kind_incremental (k : source_kind) : bool :=
  match k with
  | PriceHistory | MacroSeries | LaborSeries => true
  | Feed | StressTest => false
  end.

(** The generic path with the tag and the mapping of the call. *)
Definition generic_equivalent (self : loc) (source_id : string)
    (c : convenience_call) : M DataFrame :=
  _fetch_with_config self source_id (kind_tag (call_kind c)) (call_mapping c)
    (kind_primary_keys (call_kind c)) (kind_incremental (call_kind c)) ∅.

(** The method of the class that the call names. *)
Definition convenience_method (self : loc) (source_id : string)
    (c : convenience_call) : M DataFrame :=
  match c with
  | YFinance symbols period interval =>
      fetch_yfinance_data self source_id symbols period interval
  | Rss feeds => fetch_rss_data self source_id feeds
  | Fred series => fetch_fred_data self source_id series
  | Bls series => fetch_bls_data self source_id series
  | FedStress years scenarios =>
      fetch_fed_stress_data self source_id years scenarios
  end.

(** *** Two readings that the code does not bear out *)

(** "Exactly two more columns than the union of the records' fields",
    for every result with records. *)
Definition always_two_more_columns (self : loc) (source_id source_type : string)
    (config : gmap string pyval) (primary_keys : list string)
    (incremental : bool) (fetch_kwargs : gmap string pyval) (σ : state)
    : Prop :=
  ∀ result σ1,
    acquire self source_id source_type config primary_keys incremental
      fetch_kwargs σ = (Ok result, σ1) →
    records result ≠ [] →
    ∃ df σ',
      _fetch_with_config self source_id source_type config primary_keys
        incremental fetch_kwargs σ = (Ok df, σ')
      ∧ n_columns df
        = size (⋃ (dom <$> record_fields (heap σ1) result)) + 2.

(** "An exception is raised if and only if [create_source] or [fetch]
    raises one." *)
Definition raises_iff_create_source_or_fetch_raises (self : loc)
    (source_id source_type : string) (config : gmap string pyval)
    (primary_keys : list string) (incremental : bool)
    (fetch_kwargs : gmap string pyval) (σ : state) : Prop :=
  let r := _fetch_with_config self source_id source_type config primary_keys
             incremental fetch_kwargs σ in
  is_Some (raised r.1) ↔
  ∃ ev, ev ∈ new_events σ r.2
        ∧ (is_create_source ev || is_fetch ev) = true
        ∧ is_Some (event_exc ev).

(** *** A process: a sequence of calls into the module *)

Inductive call : Type :=
  | CallGetBridge
  | CallFetchData (source_id source_type : string)
      (config : gmap string pyval) (primary_keys : list string)
      (incremental : bool).

Definition is_get_bridge (c : call) : bool :=
  match c with CallGetBridge => true | CallFetchData _ _ _ _ _ => false end.

(** One call; the instance it returned, when it is a call of [get_bridge].
    An exception of [fetch_data] is caught by the caller, and the process
    goes on. *)
Definition run_call (c : call) (σ : state) : option loc * state :=
  match c with
  | CallGetBridge =>
      match get_bridge σ with
      | (Ok b, σ') => (Some b, σ')
      | (Raise _, σ') => (None, σ')
      end
  | CallFetchData source_id source_type config primary_keys incremental =>
      (None,
       (fetch_data source_id source_type config primary_keys incremental σ).2)
  end.

(** The instances returned by the calls of [get_bridge], in order. *)
Fixpoint run_calls (cs : list call) (σ : state) : list loc * state :=
  match cs with
  | [] => ([], σ)
  | c :: cs' =>
      let '(o, σ') := run_call c σ in
      let '(bs, σ'') := run_calls cs' σ' in
      (from_option (λ b, [b]) [] o ++ bs, σ'')
  end.

End Model.

(** ** A scripted environment

    A stand-in for the framework whose behaviour is read off its world:
    which call fails, which records a fetch returns, what the clock shows. *)

Module Mock.

Record world : Type := mk_world {
  config_error : option string;
  registry_error : option string;
  create_error : option string;
  fetch_error : option string;
  feed : list (gmap string pyval);
  clock : list datetime
}.

Definition epoch : datetime := Datetime.mk 1970 1 1 0 0 0 0 eq_refl.

Definition fail_or {A} (err : world → option string) (a : A) (w : world)
    : outcome string A * world :=
  match err w with
  | Some e => (Raise e, w)
  | None => (Ok a, w)
  end.

(** One new dictionary per element of the feed. *)
Fixpoint alloc_records (ds : list (gmap string pyval))
    (h : gmap loc (gmap string pyval))
    : list PyRecord * gmap loc (gmap string pyval) :=
  match ds with
  | [] => ([], h)
  | d :: ds' =>
      let l := fresh (dom h) in
      let '(rs, h') := alloc_records ds' (<[l := d]> h) in
      (mkRecord l :: rs, h')
  end.

Definition fetch (src : SourceConfig.kwargs) (params : gmap string pyval)
    (wh : world * gmap loc (gmap string pyval))
    : outcome string FetchResult * (world * gmap loc (gmap string pyval)) :=
  match fetch_error wh.1 with
  | Some e => (Raise e, wh)
  | None =>
      let '(rs, h') := alloc_records (feed wh.1) wh.2 in
      (Ok (mkFetchResult rs), (wh.1, h'))
  end.

Definition tick (w : world) : datetime * world :=
  match clock w with
  | t :: ts =>
      (t, mk_world (config_error w) (registry_error w) (create_error w)
            (fetch_error w) (feed w) ts)
  | [] => (epoch, w)
  end.

Lemma alloc_records_allocated ds h rs h' :
  alloc_records ds h = (rs, h') →
  h ⊆ h' ∧ ∀ r, r ∈ rs → is_Some (h' !! data r).
Proof.
  revert h rs h'. induction ds as [|d ds IH]; intros h rs h'; simpl.
  - intros [= <- <-]. split; [done|]. intros r Hr. by apply elem_of_nil in Hr.
  - set (l := fresh (dom h)).
    destruct (alloc_records ds (<[l:=d]> h)) as [rs0 h0] eqn:E.
    intros [= <- <-]. destruct (IH _ _ _ E) as [Hsub Hall].
    assert (Hl : h !! l = None).
    { apply not_elem_of_dom. apply is_fresh. }
    split.
    + etrans; [|exact Hsub]. by apply insert_subseteq.
    + intros r [->|Hr]%elem_of_cons; [|by apply Hall].
      simpl. exists d. eapply lookup_weaken; [|exact Hsub].
      apply lookup_insert_eq.
Qed.

Lemma fetch_allocated src params w h result w' h' :
  fetch src params (w, h) = (Ok result, (w', h')) →
  ∀ r, r ∈ records result → is_Some (h' !! data r).
Proof.
  unfold fetch. simpl. destruct (fetch_error w); [done|].
  destruct (alloc_records (feed w) h) as [rs h0] eqn:E.
  intros [= <- <- <-]. simpl.
  by apply (alloc_records_allocated _ _ _ _ E).
Qed.

Definition env : Environment := {|
  World := world;
  Registry := unit;
  Config := SourceConfig.kwargs;
  Source := SourceConfig.kwargs;
  exn := string;
  get_registry := fail_or registry_error ();
  SourceConfig_new kw := fail_or config_error kw;
  create_source _ cfg := fail_or create_error cfg;
  source_fetch := fetch;
  utcnow := tick;
  source_fetch_allocated := fetch_allocated
|}.

End Mock.

(** ** Concrete runs in the scripted environment *)

Module Examples.

Definition t_first : datetime := Datetime.mk 2024 3 15 9 30 0 0 eq_refl.
Definition t_second : datetime := Datetime.mk 2024 3 15 9 30 0 250000 eq_refl.

(** A world in which nothing fails, a fetch returns one record per
    dictionary of [feed], and the clock shows [t_first], then [t_second]. *)
Definition world_with (feed : list (gmap string pyval)) : Mock.world :=
  Mock.mk_world None None None None feed [t_first; t_second].

(** A world in which [get_registry] raises. *)
Definition registry_down : Mock.world :=
  Mock.mk_world None (Some "registry unavailable") None None [] [].

(** A process that holds one bridge, at location [0], which has not loaded
    the registry yet. *)
Definition start (w : Mock.world) : state (Env := Mock.env) :=
  State (Env := Mock.env) ∅ {[0 := mkCDataBridge (Env := Mock.env) None]}
    (Some 0) w [].

Definition series : gmap string pyval :=
  {["series" := PyList [PyStr "GDP"; PyStr "UNRATE"]]}.

(** Two records with different fields. *)
Definition two_series : list (gmap string pyval) :=
  [ {["series_id" := PyStr "GDP"; "value" := PyInt 27]};
    {["series_id" := PyStr "UNRATE"]} ].

(** One record that already has a field named ["_source_id"]. *)
Definition stale : list (gmap string pyval) :=
  [ {["_source_id" := PyStr "stale"; "value" := PyInt 1]} ].

(** The generic path on the series configuration. *)
Definition fetch_series (w : Mock.world)
    : outcome string DataFrame * state (Env := Mock.env) :=
  _fetch_with_config (Env := Mock.env) 0 "fred_gdp" "fred" series
    ["series_id"; "date"] true ∅ (start w).

Definition acquire_series (w : Mock.world)
    : outcome string FetchResult * state (Env := Mock.env) :=
  acquire (Env := Mock.env) 0 "fred_gdp" "fred" series
    ["series_id"; "date"] true ∅ (start w).

End Examples.

(** ** The thumbnail script: interaction density

    [src/generate_thumbnail.py], up to the plot.  Arrays are lists of
    binary64 numbers; [gaussian_kde] is scipy's and is taken as given.  The
    calls of the estimator are collected beside the curves. *)

Module Thumbnail.

Definition of_int (n : Z) : float := PrimFloat.of_uint63 (Uint63.of_Z n).

Definition f0 : float := 200%float.

(** [np.arange(1, 31)] *)
Definition partials : list Z := seqZ 1 30.

Definition intervals_listed : list (string * float * string) :=
  [ ("Major third (5:4)", (5 / 4)%float, "#ff6b6b");
    ("Perfect fourth (4:3)", (4 / 3)%float, "#ffb74d");
    ("Perfect fifth (3:2)", (3 / 2)%float, "#81c784");
    ("Octave (2:1)", 2%float, "#64b5f6") ].

(** [intervals = list(reversed(intervals))] *)
Definition intervals : list (string * float * string) :=
  reverse intervals_listed.

(** [fA = partials[:, None] * f0], a column. *)
Definition fA : list float := (λ p, of_int p * f0)%float <$> partials.

(** [fB = partials[None, :] * f0 * ratio], a row. *)
Definition fB (ratio : float) : list float :=
  (λ q, of_int q * f0 * ratio)%float <$> partials.

(** [np.abs(fA - fB).flatten()]: the column broadcast against the row,
    row by row. *)
Definition abs_differences (ratio : float) : list float :=
  a ← fA; (λ b, PrimFloat.abs (a - b)%float) <$> fB ratio.

(** [delta_vals[delta_vals <= 200]] *)
Definition below_cutoff (vals : list float) : list float :=
  List.filter (λ d, (d <=? 200)%float) vals.

Definition delta_vals (ratio : float) : list float :=
  below_cutoff (abs_differences ratio).

(** [np.linspace(start, stop, num)] for [num > 1]. *)
Definition linspace (start stop : float) (num : nat) : list float :=
  let step := ((stop - start) / of_int (Z.of_nat (num - 1)))%float in
  (λ i, if decide (i = num - 1) then stop
        else (of_int (Z.of_nat i) * step + start)%float) <$> seq 0 num.

Definition x : list float := linspace 0%float 200%float 600.

(** [bw_method=0.035]: the literal denotes the nearest binary64 number. *)
#[local] Set Warnings "-inexact-float".
Definition bw_method : float := 0.035%float.

Record loop_state : Type := mk_loop_state {
  ys : list (list float);
  kde_calls : list (list float * float)
}.

Section Script.
Variable gaussian_kde : list float → float → list float → list float.

(** The body of [for name, ratio, color in intervals]. *)
Definition loop_body (st : loop_state) (interval : string * float * string)
    : loop_state :=
  let '(name, ratio, color) := interval in
  let delta_vals := abs_differences ratio in
  let delta_vals := below_cutoff delta_vals in
  let kde := gaussian_kde delta_vals bw_method in
  let y :=
    (λ v, v * of_int (Z.of_nat (length delta_vals)))%float <$> kde x in
  {| ys := ys st ++ [y];
     kde_calls := kde_calls st ++ [(delta_vals, bw_method)] |}.

Definition density_loop : loop_state :=
  fold_left loop_body intervals (mk_loop_state [] []).

(** The density curve of one ratio. *)
Definition density (ratio : float) : list float :=
  (λ v, v * of_int (Z.of_nat (length (delta_vals ratio))))%float
    <$> gaussian_kde (delta_vals ratio) bw_method x.

End Script.

(** The four ratios, in the order of the loop. *)
Definition ratios : list float :=
  [2; 3 / 2; 4 / 3; 5 / 4]%float.

(** [delta_f_fund = abs(f0 - ratio * f0)], where the marker of an interval
    is drawn. *)
Definition delta_f_fund (ratio : float) : float :=
  PrimFloat.abs (f0 - ratio * f0)%float.

End Thumbnail.

(** ** Observations on the trace and on the bridges *)

Section Observers.
Context `{Env : Environment}.

Definition is_get_registry (ev : event) : bool :=
  match ev with GetRegistryCall _ => true | _ => false end.

(** A call of [get_registry] that returned a registry. *)
Definition is_registry_loaded (ev : event) : bool :=
  match ev with GetRegistryCall None => true | _ => false end.

Definition is_source_config (ev : event) : bool :=
  match ev with SourceConfigCall _ _ => true | _ => false end.

(** The registry that the bridge at [self] has cached, if any. *)
Definition cached_registry (σ : state) (self : loc) : option Registry :=
  bridges σ !! self ≫= _registry.

(** The process has its bridge, and the bridge has its registry. *)
Definition registry_loaded (σ : state) : Prop :=
  ∃ b, _bridge σ = Some b ∧ is_Some (cached_registry σ b).

(** The number of rows of the table a call returned; none when it raised. *)
Definition rows_returned (o : outcome exn DataFrame) : nat :=
  match o with Ok df => n_rows df | Raise _ => 0 end.

End Observers.

(** * Properties *)

(** ** Timestamps *)

Section Timestamps.
Import Datetime.

Fixpoint digit_string (s : string) : Prop :=
  match s with
  | EmptyString => True
  | String c s' => is_digit c = true ∧ digit_string s'
  end.

Lemma is_digit_digit n : is_digit (digit n) = true.
Proof.
  unfold is_digit, digit.
  assert (N.modulo n 10 < 10)%N by (apply N.mod_lt; lia).
  revert H. generalize (N.modulo n 10). intros m Hm.
  rewrite N_ascii_embedding by lia.
  apply andb_true_iff. split; apply N.leb_le; lia.
Qed.

Lemma string_app_cons c (s1 s2 : string) :
  String c s1 +:+ s2 = String c (s1 +:+ s2).
Proof. reflexivity. Qed.

Lemma string_app_nil_l (s : string) : "" +:+ s = s.
Proof. reflexivity. Qed.

Lemma string_length_app (s1 s2 : string) :
  String.length (s1 +:+ s2) = String.length s1 + String.length s2.
Proof.
  induction s1 as [|c s1 IH]; [done|].
  rewrite string_app_cons. simpl. by rewrite IH.
Qed.

Lemma string_app_nil_r (s : string) : s +:+ "" = s.
Proof.
  induction s as [|c s IH]; [done|]. rewrite string_app_cons. by f_equal.
Qed.

Lemma digit_string_app s1 s2 :
  digit_string s1 → digit_string s2 → digit_string (s1 +:+ s2).
Proof.
  induction s1 as [|c s1 IH]; [done|].
  rewrite string_app_cons. simpl. intros [??] ?. auto.
Qed.

Lemma digit_string_zeros k : digit_string (zeros k).
Proof. induction k; simpl; auto. Qed.

Lemma length_zeros k : String.length (zeros k) = k.
Proof. induction k; simpl; auto. Qed.

Lemma digit_string_digits fuel n : digit_string (digits fuel n).
Proof.
  revert n. induction fuel as [|fuel IH]; intros n; simpl; [done|].
  destruct (n <? 10)%N.
  - split; [apply is_digit_digit|done].
  - apply digit_string_app; [apply IH|].
    split; [apply is_digit_digit|done].
Qed.

(** A number below [10^w] has at most [w] digits. *)
Lemma length_digits_le fuel n w :
  1 ≤ w → (n < 10 ^ N.of_nat w)%N → String.length (digits fuel n) ≤ w.
Proof.
  revert n w. induction fuel as [|fuel IH]; intros n w Hw Hn; simpl; [lia|].
  destruct (N.ltb_spec n 10) as [Hlt|Hge]; simpl; [lia|].
  rewrite string_length_app. simpl.
  destruct w as [|[|w]]; [lia| |].
  - change (10 ^ N.of_nat 1)%N with 10%N in Hn. lia.
  - assert (String.length (digits fuel (n / 10)) ≤ S w); [|lia].
    apply IH; [lia|].
    apply N.Div0.div_lt_upper_bound.
    replace (N.of_nat (S (S w))) with (N.succ (N.of_nat (S w))) in Hn by lia.
    by rewrite N.pow_succ_r' in Hn.
Qed.

Lemma length_fmt_d w n :
  1 ≤ w → (n < 10 ^ N.of_nat w)%N → String.length (fmt_d w n) = w.
Proof.
  intros Hw Hn. unfold fmt_d, decimal.
  rewrite string_length_app, length_zeros.
  pose proof (length_digits_le (S (N.size_nat n)) n w Hw Hn). lia.
Qed.

Lemma digit_string_fmt_d w n : digit_string (fmt_d w n).
Proof.
  unfold fmt_d, decimal.
  apply digit_string_app; [apply digit_string_zeros|apply digit_string_digits].
Qed.

Lemma eat_digits_app s rest :
  digit_string s → eat_digits (String.length s) (s +:+ rest) = Some rest.
Proof.
  induction s as [|c s IH]; [done|].
  rewrite string_app_cons. simpl. intros [-> ?]. auto.
Qed.

Lemma eat_fmt_d w n rest :
  1 ≤ w → (n < 10 ^ N.of_nat w)%N →
  eat_digits w (fmt_d w n +:+ rest) = Some rest.
Proof.
  intros Hw Hn.
  rewrite <- (length_fmt_d w n Hw Hn) at 1.
  apply eat_digits_app, digit_string_fmt_d.
Qed.

(** The ranges the constructor checked bound the width of every field. *)
Lemma datetime_bounds (t : datetime) :
  (year t < 10 ^ N.of_nat 4 ∧ month t < 10 ^ N.of_nat 2
   ∧ day t < 10 ^ N.of_nat 2 ∧ hour t < 10 ^ N.of_nat 2
   ∧ minute t < 10 ^ N.of_nat 2 ∧ second t < 10 ^ N.of_nat 2
   ∧ microsecond t < 10 ^ N.of_nat 6)%N.
Proof.
  pose proof (in_range t) as H. unfold fields_ok in H.
  repeat (apply andb_true_iff in H; destruct H as [H ?]).
  repeat match goal with
         | H : (_ <=? _)%N = true |- _ => apply N.leb_le in H
         | H : (_ <? _)%N = true |- _ => apply N.ltb_lt in H
         end.
  assert (days_in_month (year t) (month t) ≤ 31)%N.
  { unfold days_in_month. repeat case_match; lia. }
  change (10 ^ N.of_nat 4)%N with 10000%N.
  change (10 ^ N.of_nat 2)%N with 100%N.
  change (10 ^ N.of_nat 6)%N with 1000000%N.
  lia.
Qed.

(** [isoformat] always prints a string of the timestamp syntax. *)
Lemma isoformat_syntax (t : datetime) : timestamp_syntax (isoformat t) = true.
Proof.
  destruct (datetime_bounds t) as (Hy & Hmo & Hd & Hh & Hmi & Hs & Hus).
  unfold timestamp_syntax, isoformat, date_time_tokens, fraction_tokens.
  cbn [eat_all eat].
  repeat (rewrite eat_fmt_d by (done || lia);
          rewrite ?string_app_cons, ?string_app_nil_l; cbn [eat_char Ascii.eqb];
          simpl Bool.eqb; cbn iota).
  destruct (microsecond t =? 0)%N; [done|].
  cbn [eat_char Ascii.eqb]. simpl Bool.eqb. cbn iota.
  rewrite <- (string_app_nil_r (fmt_d 6 (microsecond t))).
  by rewrite eat_fmt_d by (done || lia).
Qed.

Example isoformat_whole_second :
  isoformat (Datetime.mk 2024 3 15 9 30 0 0 eq_refl) = "2024-03-15T09:30:00".
Proof. reflexivity. Qed.

Example isoformat_microseconds :
  isoformat (Datetime.mk 987 12 31 23 59 59 42 eq_refl)
  = "0987-12-31T23:59:59.000042".
Proof. reflexivity. Qed.

Example decimal_ten_digits : decimal 1234567890 = "1234567890".
Proof. reflexivity. Qed.

Example timestamp_syntax_rejects :
  timestamp_syntax "2024-03-15 09:30:00" = false
  ∧ timestamp_syntax "2024-3-15T09:30:00" = false
  ∧ timestamp_syntax "2024-03-15T09:30:00.25" = false
  ∧ timestamp_syntax "2024-03-15T09:30:00Z" = false.
Proof. by split_and!. Qed.

End Timestamps.

(** ** The monad *)

Section BridgeFacts.
Context `{Env : Environment}.

Lemma bind_run {A B} (m : M A) (k : A → M B) (σ : state) :
  (m ≫= k) σ =
  match m σ with
  | (Ok a, σ') => k a σ'
  | (Raise e, σ') => (Raise e, σ')
  end.
Proof. reflexivity. Qed.

Lemma bind_ok {A B} (m : M A) (k : A → M B) (σ σ' : state) a :
  m σ = (Ok a, σ') → (m ≫= k) σ = k a σ'.
Proof. intros H. by rewrite bind_run, H. Qed.

Lemma bind_raise {A B} (m : M A) (k : A → M B) (σ σ' : state) e :
  m σ = (Raise e, σ') → (m ≫= k) σ = (Raise e, σ').
Proof. intros H. by rewrite bind_run, H. Qed.

Lemma state_eta (σ : state) :
  State (heap σ) (bridges σ) (_bridge σ) (world σ) (trace σ) = σ.
Proof. by destruct σ. Qed.

Lemma new_events_app (σ σ' : state) evs :
  trace σ' = trace σ ++ evs → new_events σ σ' = evs.
Proof. intros H. unfold new_events. rewrite H. apply drop_app_length. Qed.

(** ** The loop over the records *)

(** One iteration: a new dictionary holding the stamped fields, one
    reading of the clock, nothing else. *)
Lemma add_metadata_run source_id data_rows record (σ : state) :
  add_metadata source_id data_rows record σ =
  let row := fresh (dom (heap σ)) in
  (Ok (data_rows ++ [row]),
   State
     (<[row := stamp source_id (utcnow (world σ)).1
                 (deref (heap σ) (data record))]> (heap σ))
     (bridges σ) (_bridge σ) (utcnow (world σ)).2
     (trace σ ++ [UtcnowCall (utcnow (world σ)).1])).
Proof.
  unfold add_metadata, dict_copy, dict_setitem, datetime_utcnow.
  unfold mbind, M_bind, mret, M_ret. simpl.
  destruct (utcnow (world σ)) as [t w] eqn:Ht. simpl.
  unfold set_heap, stamp, deref. simpl.
  rewrite !lookup_insert_eq. simpl. rewrite !insert_insert_eq.
  reflexivity.
Qed.

Lemma read_clock_S n w :
  read_clock (S n) w =
  ((utcnow w).1 :: (read_clock n (utcnow w).2).1,
   (read_clock n (utcnow w).2).2).
Proof.
  simpl. destruct (utcnow w) as [t w']. simpl.
  by destruct (read_clock n w').
Qed.

Lemma length_read_clock n w : length (read_clock n w).1 = n.
Proof.
  revert w. induction n as [|n IH]; intros w; [done|].
  rewrite read_clock_S. simpl. by rewrite IH.
Qed.

(** The whole loop.  The rows are new dictionaries, so every dictionary
    that existed before keeps its contents; the [i]-th row holds the fields
    of the [i]-th record stamped with the [i]-th reading of the clock. *)
Lemma for_each_add_metadata source_id rs : ∀ acc (σ : state),
  ∃ ls h',
    for_each (add_metadata source_id) rs acc σ =
      (Ok (acc ++ ls),
       State h' (bridges σ) (_bridge σ)
         (read_clock (length rs) (world σ)).2
         (trace σ ++ (UtcnowCall <$> (read_clock (length rs) (world σ)).1)))
    ∧ heap σ ⊆ h'
    ∧ length ls = length rs
    ∧ ((∀ r, r ∈ rs → is_Some (heap σ !! data r)) →
       deref h' <$> ls =
       zip_with (stamp source_id) (read_clock (length rs) (world σ)).1
         ((λ r, deref (heap σ) (data r)) <$> rs)).
Proof.
  induction rs as [|r rs IH]; intros acc σ.
  - exists [], (heap σ). simpl. rewrite !app_nil_r, state_eta. done.
  - cbn [for_each]. rewrite bind_run, add_metadata_run. cbv zeta.
    set (row := fresh (dom (heap σ))).
    set (t := (utcnow (world σ)).1).
    set (h1 := <[row := stamp source_id t (deref (heap σ) (data r))]> (heap σ)).
    set (σ1 := State h1 _ _ _ _).
    destruct (IH (acc ++ [row]) σ1) as (ls & h' & Hrun & Hsub & Hlen & Hrows).
    assert (Hrow : heap σ !! row = None).
    { apply not_elem_of_dom, is_fresh. }
    assert (Hsub1 : heap σ ⊆ h1) by by apply insert_subseteq.
    exists (row :: ls), h'. rewrite Hrun. subst σ1. cbn [length].
    rewrite read_clock_S.
    cbn [fst snd heap bridges _bridge world trace] in *. fold t.
    rewrite fmap_cons, <- !(assoc_L (++)).
    split_and!; [done|by etrans|by rewrite Hlen|].
    intros Hwf. rewrite !fmap_cons. cbn [zip_with]. f_equal.
    + unfold deref at 1.
      rewrite (lookup_weaken h1 h' row _ (lookup_insert_eq _ _ _) Hsub).
      done.
    + rewrite Hrows.
      * f_equal. apply list_fmap_ext. intros i r' Hr'.
        destruct (Hwf r') as [d Hd].
        { apply elem_of_cons. right. by eapply list_elem_of_lookup_2. }
        unfold deref, h1. rewrite lookup_insert_ne; [done|].
        intros Heq. rewrite <- Heq in Hd. congruence.
      * intros r' Hr'. destruct (Hwf r') as [d Hd].
        { apply elem_of_cons. by right. }
        exists d. by eapply lookup_weaken.
Qed.

(** ** The conversion of the result *)

Lemma reshape_run source_id result (σ : state) :
  ∃ df h',
    reshape source_id result σ =
      (Ok df,
       State h' (bridges σ) (_bridge σ)
         (read_clock (length (records result)) (world σ)).2
         (trace σ
            ++ (UtcnowCall <$> (read_clock (length (records result)) (world σ)).1)))
    ∧ heap σ ⊆ h'
    ∧ n_rows df = length (records result)
    ∧ ((∀ r, r ∈ records result → is_Some (heap σ !! data r)) →
       df = pd_DataFrame (stamped_rows source_id σ result)).
Proof.
  unfold reshape, stamped_rows, record_fields.
  destruct (records result) as [|r rs] eqn:Hrs.
  - exists (pd_DataFrame []), (heap σ). simpl.
    rewrite app_nil_r, state_eta. done.
  - destruct (for_each_add_metadata source_id (r :: rs) [] σ)
      as (ls & h' & Hrun & Hsub & Hlen & Hrows).
    exists (pd_DataFrame (deref h' <$> ls)), h'.
    rewrite (bind_ok _ _ _ _ _ Hrun).
    split_and!; [done|done| |].
    + unfold n_rows. simpl. by rewrite length_fmap.
    + intros Hwf. by rewrite Hrows.
Qed.

(** ** The calls that lead to the result *)

Ltac unfold_acquire :=
  unfold acquire, _create_source_config, call_SourceConfig, registry,
    call_get_registry, call_create_source, call_fetch, external, gets, modify;
  unfold mbind, M_bind, mret, M_ret; simpl.

(* Case analysis on what each external call of [acquire] produced. *)
Ltac external_cases :=
  repeat match goal with
    | |- context [SourceConfig_new ?kw ?w] =>
        destruct (SourceConfig_new kw w) as [[?|?] ?]; simpl
    | |- context [bridges ?σ !! ?self] =>
        destruct (bridges σ !! self) as [[[?|]]|]; simpl
    | |- context [get_registry ?w] =>
        destruct (get_registry w) as [[?|?] ?]; simpl
    | |- context [create_source ?reg ?cfg ?w] =>
        destruct (create_source reg cfg w) as [[?|?] ?]; simpl
    | |- context [source_fetch ?src ?p ?wh] =>
        destruct (source_fetch src p wh) as [? [? ?]] eqn:?; simpl
    end.

Lemma acquire_run self source_id source_type config primary_keys incremental
    fetch_kwargs (σ : state) :
  let kw := SourceConfig.mk source_id source_id source_type config
              primary_keys incremental in
  let r := acquire self source_id source_type config primary_keys incremental
             fetch_kwargs σ in
  ∃ evs,
    trace r.2 = trace σ ++ evs
    ∧ acquire_events kw (fetch_kwargs ∪ config) evs (raised r.1)
    ∧ _bridge r.2 = _bridge σ.
Proof.
  intros kw r. subst r. unfold_acquire. fold kw.
  external_cases; rewrite <- ?(assoc_L (++));
    (eexists; split_and!; [done| |done]);
    first [ apply ae_config
          | apply ae_registry
          | apply (ae_create _ _ []); constructor
          | apply (ae_create _ _ [GetRegistryCall None]); constructor
          | apply (ae_fetch _ _ []); constructor
          | apply (ae_fetch _ _ [GetRegistryCall None]); constructor ].
Qed.

(** A result that [acquire] returns was returned by a fetch: its records
    refer to dictionaries of the store. *)
Lemma acquire_allocated self source_id source_type config primary_keys
    incremental fetch_kwargs (σ σ1 : state) result :
  acquire self source_id source_type config primary_keys incremental
    fetch_kwargs σ = (Ok result, σ1) →
  ∀ r, r ∈ records result → is_Some (heap σ1 !! data r).
Proof.
  unfold_acquire.
  external_cases; intros; simplify_eq/=; by eapply source_fetch_allocated.
Qed.

(** [_fetch_with_config] is [acquire] followed by [reshape]. *)
Lemma fetch_with_config_run self source_id source_type config primary_keys
    incremental fetch_kwargs (σ : state) :
  _fetch_with_config self source_id source_type config primary_keys
    incremental fetch_kwargs σ =
  match
    acquire self source_id source_type config primary_keys incremental
      fetch_kwargs σ
  with
  | (Ok result, σ1) => reshape source_id result σ1
  | (Raise e, σ1) => (Raise e, σ1)
  end.
Proof.
  unfold _fetch_with_config, acquire, reshape.
  unfold mbind, M_bind.
  repeat (case_match; simplify_eq/=; try done).
Qed.

(* Membership in a list that ends in explicit elements. *)
Ltac find_event :=
  solve [ repeat first
            [ apply list_elem_of_here
            | apply elem_of_app; right
            | apply list_elem_of_further ] ].

Lemma registry_events_inv regs ev :
  registry_events regs → ev ∈ regs → ev = GetRegistryCall None.
Proof.
  intros Hregs Hin. destruct Hregs.
  - by apply elem_of_nil in Hin.
  - apply elem_of_cons in Hin as [->|Hin]; [done|by apply elem_of_nil in Hin].
Qed.

(** Every fetch among the calls of [acquire] received the merged mapping. *)
Lemma acquire_events_fetch kw params evs exc src p e :
  acquire_events kw params evs exc → FetchCall src p e ∈ evs → p = params.
Proof.
  intros [] Hin; repeat
    (apply elem_of_cons in Hin as [Hin|Hin] || apply elem_of_app in Hin as [Hin|Hin]);
    try discriminate; try (by apply elem_of_nil in Hin);
    try (by eapply registry_events_inv in Hin; [discriminate|]).
  congruence.
Qed.

(** [acquire] raises exactly the exception that one of its calls raised. *)
Lemma acquire_events_raised kw params evs exc e :
  acquire_events kw params evs exc →
  exc = Some e ↔ ∃ ev, ev ∈ evs ∧ event_exc ev = Some e.
Proof.
  intros Hev. split.
  - intros ->.
    inversion Hev; subst;
      [ exists (SourceConfigCall kw (Some e))
      | exists (GetRegistryCall (Some e))
      | eexists (CreateSourceCall _ _ (Some e))
      | eexists (FetchCall _ _ (Some e)) ];
      (split; [find_event|done]).
  - intros (ev & Hin & Hexc).
    destruct Hev; repeat
      (apply elem_of_cons in Hin as [Hin|Hin] || apply elem_of_app in Hin as [Hin|Hin]);
      subst; simpl in *; try congruence; try (by apply elem_of_nil in Hin);
      by eapply registry_events_inv in Hin; [subst|].
Qed.

(** No call is made twice, and the clock is not read. *)
Lemma acquire_events_once kw params evs exc :
  acquire_events kw params evs exc →
  length (filter (λ ev, is_create_source ev) evs) ≤ 1
  ∧ length (filter (λ ev, is_fetch ev) evs) ≤ 1
  ∧ filter (λ ev, is_utcnow ev) evs = [].
Proof.
  intros [? | ? | ? ? ? ? [] | ? ? ? ? ? []]; vm_compute; split_and!; done || lia.
Qed.

(** When nothing was raised the fetch was called, with the merged mapping. *)
Lemma acquire_events_ok kw params evs :
  acquire_events kw params evs None →
  ∃ src, FetchCall src params None ∈ evs.
Proof. inversion 1; subst. eexists. find_event. Qed.

(** The external calls of a whole run of [_fetch_with_config]: those of
    [acquire], then the readings of the clock. *)
Lemma fetch_with_config_events self source_id source_type config primary_keys
    incremental fetch_kwargs (σ : state) :
  let kw := SourceConfig.mk source_id source_id source_type config
              primary_keys incremental in
  let r := _fetch_with_config self source_id source_type config primary_keys
             incremental fetch_kwargs σ in
  ∃ evs ts,
    new_events σ r.2 = evs ++ (UtcnowCall <$> ts)
    ∧ acquire_events kw (fetch_kwargs ∪ config) evs (raised r.1)
    ∧ _bridge r.2 = _bridge σ
    ∧ (is_Some (raised r.1) → ts = []).
Proof.
  intros kw r. subst r. rewrite fetch_with_config_run.
  destruct (acquire_run self source_id source_type config primary_keys
              incremental fetch_kwargs σ) as (evs & Htr & Hev & Hb).
  fold kw in Hev.
  destruct (acquire _ _ _ _ _ _ _ σ) as [[result|e] σ1]; simpl in *.
  - destruct (reshape_run source_id result σ1)
      as (df & h' & -> & _ & _ & _). simpl.
    eexists evs, _. split_and!; [|done|done|by intros [? [=]]].
    apply new_events_app. simpl. by rewrite Htr, <- (assoc_L (++)).
  - exists evs, []. split_and!; [|done|done|done].
    apply new_events_app. simpl. by rewrite app_nil_r.
Qed.

Lemma elem_of_utcnow_calls (ev : event) (ts : list datetime) :
  ev ∈ UtcnowCall <$> ts → event_exc ev = None ∧ is_fetch ev = false.
Proof. intros (t & -> & _)%list_elem_of_fmap. done. Qed.

(** ** The generic fetch path *)

(** C1: when the fetch returns a result without records, the generic path
    returns an empty table (no rows, no columns) and raises nothing; the
    source kind plays no part. *)
Theorem empty_result_gives_empty_table self source_id source_type config
    primary_keys incremental fetch_kwargs (σ σ1 : state) result :
  acquire self source_id source_type config primary_keys incremental
    fetch_kwargs σ = (Ok result, σ1) →
  records result = [] →
  ∃ df,
    _fetch_with_config self source_id source_type config primary_keys
      incremental fetch_kwargs σ = (Ok df, σ1)
    ∧ n_rows df = 0 ∧ n_columns df = 0 ∧ df = pd_DataFrame [].
Proof.
  intros Hacq Hrs. rewrite fetch_with_config_run, Hacq.
  unfold reshape. rewrite Hrs. by exists (pd_DataFrame []).
Qed.

(** C3: the mapping that [fetch] receives is the base configuration merged
    with the per-call keyword parameters, and on a key that both have the
    keyword parameter is the one used.  Whenever the path returns a table,
    the fetch was called with that mapping. *)
Theorem fetch_params_are_merged self source_id source_type config
    primary_keys incremental fetch_kwargs (σ : state) :
  let r := _fetch_with_config self source_id source_type config primary_keys
             incremental fetch_kwargs σ in
  (∀ src params exc,
     FetchCall src params exc ∈ new_events σ r.2 →
     params = fetch_kwargs ∪ config
     ∧ (∀ k v, fetch_kwargs !! k = Some v → params !! k = Some v)
     ∧ (∀ k, fetch_kwargs !! k = None → params !! k = config !! k))
  ∧ (raised r.1 = None →
     ∃ src, FetchCall src (fetch_kwargs ∪ config) None ∈ new_events σ r.2).
Proof.
  intros r.
  destruct (fetch_with_config_events self source_id source_type config
              primary_keys incremental fetch_kwargs σ)
    as (evs & ts & Hnew & Hev & _ & _).
  fold r in Hnew, Hev. rewrite Hnew. split.
  - intros src params exc [Hin|Hin]%elem_of_app.
    + rewrite (acquire_events_fetch _ _ _ _ _ _ _ Hev Hin).
      split_and!; [done| |].
      * intros k v Hk. by apply lookup_union_Some_l.
      * intros k Hk. by apply lookup_union_r.
    + by apply elem_of_utcnow_calls in Hin as [_ ?].
  - intros Hok. rewrite Hok in Hev.
    destruct (acquire_events_ok _ _ _ Hev) as [src Hsrc].
    exists src. apply elem_of_app. by left.
Qed.

(** *** The stamped rows *)

Lemma stamp_source_id source_id t (d : gmap string pyval) :
  stamp source_id t d !! "_source_id" = Some (PyStr source_id).
Proof.
  unfold stamp. rewrite lookup_insert_ne by done. apply lookup_insert_eq.
Qed.

Lemma stamp_fetched_at source_id t (d : gmap string pyval) :
  stamp source_id t d !! "_fetched_at" = Some (PyStr (Datetime.isoformat t)).
Proof. apply lookup_insert_eq. Qed.

Lemma stamp_other source_id t (d : gmap string pyval) k :
  k ∉ metadata_columns → stamp source_id t d !! k = d !! k.
Proof.
  unfold metadata_columns, stamp. intros Hk.
  rewrite !lookup_insert_ne; [done|set_solver..].
Qed.

Lemma dom_stamp source_id t (d : gmap string pyval) :
  dom (stamp source_id t d) = dom d ∪ metadata_columns.
Proof. unfold stamp, metadata_columns. rewrite !dom_insert_L. set_solver. Qed.

Lemma size_metadata_columns : size metadata_columns = 2.
Proof.
  unfold metadata_columns. rewrite size_union by set_solver.
  by rewrite !size_singleton.
Qed.

Lemma stamped_rows_lookup source_id (σ : state) result i r :
  records result !! i = Some r →
  ∃ t,
    (read_clock (length (records result)) (world σ)).1 !! i = Some t
    ∧ stamped_rows source_id σ result !! i
      = Some (stamp source_id t (deref (heap σ) (data r))).
Proof.
  intros Hr. unfold stamped_rows, record_fields.
  destruct ((read_clock (length (records result)) (world σ)).1 !! i)
    as [t|] eqn:Ht.
  - exists t. split; [done|]. apply lookup_zip_with_Some.
    eexists _, _. split_and!; [done|done|].
    by rewrite list_lookup_fmap, Hr.
  - apply lookup_ge_None in Ht. rewrite length_read_clock in Ht.
    apply lookup_lt_Some in Hr. lia.
Qed.

Lemma length_stamped_rows source_id (σ : state) result :
  length (stamped_rows source_id σ result) = length (records result).
Proof.
  unfold stamped_rows, record_fields.
  rewrite length_zip_with, length_read_clock, length_fmap. lia.
Qed.

Lemma stamped_rows_lookup_inv source_id (σ : state) result i row :
  stamped_rows source_id σ result !! i = Some row →
  ∃ t r,
    (read_clock (length (records result)) (world σ)).1 !! i = Some t
    ∧ records result !! i = Some r
    ∧ row = stamp source_id t (deref (heap σ) (data r)).
Proof.
  intros Hrow.
  destruct (records result !! i) as [r|] eqn:Hr.
  - destruct (stamped_rows_lookup source_id σ result i r Hr) as (t & Ht & Hs).
    exists t, r. split_and!; [done|done|congruence].
  - apply lookup_lt_Some in Hrow. rewrite length_stamped_rows in Hrow.
    apply lookup_ge_None in Hr. lia.
Qed.

(** The keys of the stamped rows: those of the records, and the two
    metadata names as soon as there is a row. *)
Lemma dom_zip_with_stamp source_id ts (ds : list (gmap string pyval)) :
  length ts = length ds → ds ≠ [] →
  ⋃ (dom <$> zip_with (stamp source_id) ts ds)
  = ⋃ (dom <$> ds) ∪ metadata_columns.
Proof.
  revert ts. induction ds as [|d ds IH]; intros [|t ts] Hlen Hne;
    try done.
  cbn [zip_with]. rewrite !fmap_cons. cbn [union_list foldr].
  rewrite dom_stamp.
  destruct ds as [|d' ds].
  - destruct ts; [|done]. simpl. set_solver.
  - rewrite IH by (done || (simpl in *; lia)). set_solver.
Qed.

Lemma columns_stamped_rows source_id (σ : state) result :
  records result ≠ [] →
  columns (pd_DataFrame (stamped_rows source_id σ result))
  = ⋃ (dom <$> record_fields (heap σ) result) ∪ metadata_columns.
Proof.
  intros Hne. unfold stamped_rows. simpl. apply dom_zip_with_stamp.
  - unfold record_fields. by rewrite length_read_clock, length_fmap.
  - unfold record_fields. by destruct (records result).
Qed.

(** *** When the fetch returns *)

(** The whole path after a fetch that returned [result] in state [σ1]:
    the table of the stamped rows; the store only grows; one reading of
    the clock per record. *)
Lemma fetch_with_config_ok self source_id source_type config primary_keys
    incremental fetch_kwargs (σ σ1 : state) result :
  acquire self source_id source_type config primary_keys incremental
    fetch_kwargs σ = (Ok result, σ1) →
  ∃ h',
    _fetch_with_config self source_id source_type config primary_keys
      incremental fetch_kwargs σ =
      (Ok (pd_DataFrame (stamped_rows source_id σ1 result)),
       State h' (bridges σ1) (_bridge σ1)
         (read_clock (length (records result)) (world σ1)).2
         (trace σ1
            ++ (UtcnowCall <$> (read_clock (length (records result)) (world σ1)).1)))
    ∧ heap σ1 ⊆ h'.
Proof.
  intros Hacq. rewrite fetch_with_config_run, Hacq.
  destruct (reshape_run source_id result σ1) as (df & h' & Hrun & Hsub & _ & Hdf).
  exists h'. rewrite Hrun, Hdf; [done|].
  by eapply acquire_allocated.
Qed.

(** C2 (amended): for a result with records, the columns of the table are
    the union of the records' field names together with ["_source_id"] and
    ["_fetched_at"]; that is two more columns than the union whenever no
    record already has a field of one of these two names.  In every row the
    two columns hold the supplied source identifier and a string of the
    timestamp syntax. *)
Theorem nonempty_result_columns self source_id source_type config
    primary_keys incremental fetch_kwargs (σ σ1 : state) result :
  acquire self source_id source_type config primary_keys incremental
    fetch_kwargs σ = (Ok result, σ1) →
  records result ≠ [] →
  let fields := ⋃ (dom <$> record_fields (heap σ1) result) in
  ∃ df σ',
    _fetch_with_config self source_id source_type config primary_keys
      incremental fetch_kwargs σ = (Ok df, σ')
    ∧ columns df = fields ∪ metadata_columns
    ∧ (fields ## metadata_columns → n_columns df = size fields + 2)
    ∧ ∀ i, i < n_rows df →
        cell df i "_source_id" = Some (PyStr source_id)
        ∧ ∃ s, cell df i "_fetched_at" = Some (PyStr s)
               ∧ Datetime.timestamp_syntax s = true.
Proof.
  intros Hacq Hne fields.
  destruct (fetch_with_config_ok _ _ _ _ _ _ _ _ _ _ Hacq) as (h' & Hrun & _).
  eexists _, _. split; [exact Hrun|].
  assert (Hcols : columns (pd_DataFrame (stamped_rows source_id σ1 result))
                  = fields ∪ metadata_columns)
    by by apply columns_stamped_rows.
  split_and!; [done| |].
  - intros Hdisj. unfold n_columns. rewrite Hcols.
    by rewrite size_union, size_metadata_columns.
  - intros i Hi. unfold n_rows in Hi. simpl in Hi.
    destruct (lookup_lt_is_Some_2 _ _ Hi) as [row Hrow].
    destruct (stamped_rows_lookup_inv _ _ _ _ _ Hrow) as (t & r & _ & _ & ->).
    unfold cell. simpl. rewrite Hrow. simpl. split.
    + apply stamp_source_id.
    + exists (Datetime.isoformat t).
      split; [apply stamp_fetched_at|apply isoformat_syntax].
Qed.

(** C7: for a result with records the table has one row per record, the
    [i]-th row is made from the [i]-th record (its fields, stamped with the
    [i]-th reading of the clock), and the clock is read once per record. *)
Theorem one_row_and_one_clock_reading_per_record self source_id source_type
    config primary_keys incremental fetch_kwargs (σ σ1 : state) result :
  acquire self source_id source_type config primary_keys incremental
    fetch_kwargs σ = (Ok result, σ1) →
  records result ≠ [] →
  ∃ df σ',
    _fetch_with_config self source_id source_type config primary_keys
      incremental fetch_kwargs σ = (Ok df, σ')
    ∧ n_rows df = length (records result)
    ∧ (∀ i r,
         records result !! i = Some r →
         ∃ t,
           (read_clock (length (records result)) (world σ1)).1 !! i = Some t
           ∧ rows df !! i
             = Some (stamp source_id t (deref (heap σ1) (data r))))
    ∧ length (filter (λ ev, is_utcnow ev) (new_events σ σ'))
      = length (records result).
Proof.
  intros Hacq Hne.
  destruct (fetch_with_config_ok _ _ _ _ _ _ _ _ _ _ Hacq) as (h' & Hrun & _).
  eexists _, _. split; [exact Hrun|]. split_and!.
  - apply length_stamped_rows.
  - intros i r Hr. by apply stamped_rows_lookup.
  - destruct (acquire_run self source_id source_type config primary_keys
                incremental fetch_kwargs σ) as (evs & Htr & Hev & _).
    rewrite Hacq in Htr, Hev. simpl in Htr, Hev.
    destruct (acquire_events_once _ _ _ _ Hev) as (_ & _ & Hno).
    erewrite new_events_app;
      [|simpl; rewrite Htr, <- (assoc_L (++)); reflexivity].
    rewrite filter_app, Hno. simpl.
    set (ts := (read_clock _ _).1).
    assert (Hts : length ts = length (records result))
      by apply length_read_clock.
    rewrite <- Hts. clear. induction ts as [|t ts IH]; [done|].
    rewrite fmap_cons, filter_cons_True by done. simpl. by rewrite IH.
Qed.

(** C9: the dictionaries of the fetched records are not mutated: every
    dictionary of the store in which the fetch returned, and so the [data]
    of every record, has the same contents when the path returns. *)
Theorem record_data_not_mutated self source_id source_type config
    primary_keys incremental fetch_kwargs (σ σ1 : state) result :
  acquire self source_id source_type config primary_keys incremental
    fetch_kwargs σ = (Ok result, σ1) →
  let σ' := (_fetch_with_config self source_id source_type config
               primary_keys incremental fetch_kwargs σ).2 in
  heap σ1 ⊆ heap σ'
  ∧ ∀ r, r ∈ records result →
      ∃ d, heap σ1 !! data r = Some d ∧ heap σ' !! data r = Some d.
Proof.
  intros Hacq σ'. subst σ'.
  destruct (fetch_with_config_ok _ _ _ _ _ _ _ _ _ _ Hacq) as (h' & -> & Hsub).
  simpl. split; [done|]. intros r Hr.
  destruct (acquire_allocated _ _ _ _ _ _ _ _ _ _ Hacq r Hr) as [d Hd].
  exists d. split; [done|]. by eapply lookup_weaken.
Qed.

(** C10: when the dictionary of a record already has a field named
    ["_source_id"] or ["_fetched_at"], nothing is raised; in the row of that
    record the two fields hold the supplied source identifier and the
    timestamp, whatever the record had there, the other fields are those of
    the record, and the name does not give a further column: the row has
    the keys of the record and the two names, the table fewer than two
    columns more than the records have fields. *)
Theorem metadata_fields_overwritten self source_id source_type config
    primary_keys incremental fetch_kwargs (σ σ1 : state) result i r d k :
  acquire self source_id source_type config primary_keys incremental
    fetch_kwargs σ = (Ok result, σ1) →
  records result !! i = Some r →
  heap σ1 !! data r = Some d →
  k ∈ metadata_columns → k ∈ dom d →
  ∃ df σ' t row,
    _fetch_with_config self source_id source_type config primary_keys
      incremental fetch_kwargs σ = (Ok df, σ')
    ∧ (read_clock (length (records result)) (world σ1)).1 !! i = Some t
    ∧ cell df i "_source_id" = Some (PyStr source_id)
    ∧ cell df i "_fetched_at" = Some (PyStr (Datetime.isoformat t))
    ∧ (∀ k', k' ∉ metadata_columns → cell df i k' = d !! k')
    ∧ rows df !! i = Some row
    ∧ dom row = dom d ∪ metadata_columns
    ∧ size (dom row) < size (dom d) + 2
    ∧ n_columns df < size (⋃ (dom <$> record_fields (heap σ1) result)) + 2.
Proof.
  intros Hacq Hr Hd Hk Hkd.
  destruct (fetch_with_config_ok _ _ _ _ _ _ _ _ _ _ Hacq) as (h' & Hrun & _).
  destruct (stamped_rows_lookup source_id σ1 result i r Hr) as (t & Ht & Hrow).
  assert (Hderef : deref (heap σ1) (data r) = d) by (unfold deref; by rewrite Hd).
  rewrite Hderef in Hrow.
  assert (Hsize : ∀ X : gset string, k ∈ X →
            size (X ∪ metadata_columns) < size X + 2).
  { intros X HX. rewrite size_union_alt.
    assert (size (metadata_columns ∖ X) < size metadata_columns);
      [|rewrite size_metadata_columns in *; lia].
    apply subset_size. split; [set_solver|].
    intros Hsub. specialize (Hsub k Hk). set_solver. }
  eexists _, _, t, _. split; [exact Hrun|].
  unfold cell. simpl. rewrite Hrow. simpl.
  split_and!; [done|apply stamp_source_id|apply stamp_fetched_at| |done|
               apply dom_stamp| |].
  - intros k' Hk'. by apply stamp_other.
  - rewrite dom_stamp. by apply Hsize.
  - unfold n_columns. rewrite columns_stamped_rows.
    + apply Hsize. apply elem_of_union_list. exists (dom d). split; [|done].
      apply list_elem_of_fmap. exists d. split; [done|].
      unfold record_fields. apply list_elem_of_fmap. exists r.
      split; [done|]. by eapply list_elem_of_lookup_2.
    + intros Hnil. by rewrite Hnil in Hr.
Qed.

(** ** Exceptions *)

(** The call that raised is the last one made. *)
Lemma acquire_events_raised_last kw params evs e :
  acquire_events kw params evs (Some e) →
  ∃ evs0 ev, evs = evs0 ++ [ev] ∧ event_exc ev = Some e.
Proof.
  inversion 1; subst.
  - by exists [], (SourceConfigCall kw (Some e)).
  - by exists [SourceConfigCall kw None], (GetRegistryCall (Some e)).
  - eexists (_ :: regs), (CreateSourceCall _ _ (Some e)). done.
  - eexists (_ :: regs ++ [_]), (FetchCall _ _ (Some e)).
    split; [|done]. simpl. by rewrite <- (assoc_L (++)).
Qed.

(** C6 (amended): the generic path raises an exception exactly when one of
    the external calls it makes raises one: the constructor of the
    configuration, [get_registry] (called when the bridge has no registry
    yet), [create_source] or [fetch].  The exception is the one that call
    raised; the call that raised is the last call made, and neither
    [create_source] nor [fetch] is called more than once. *)
Theorem exceptions_are_those_of_external_calls self source_id source_type
    config primary_keys incremental fetch_kwargs (σ : state) :
  let r := _fetch_with_config self source_id source_type config primary_keys
             incremental fetch_kwargs σ in
  let evs := new_events σ r.2 in
  (∀ e, raised r.1 = Some e ↔ ∃ ev, ev ∈ evs ∧ event_exc ev = Some e)
  ∧ (∀ e, raised r.1 = Some e →
       ∃ evs0 ev, evs = evs0 ++ [ev] ∧ event_exc ev = Some e)
  ∧ length (filter (λ ev, is_create_source ev) evs) ≤ 1
  ∧ length (filter (λ ev, is_fetch ev) evs) ≤ 1.
Proof.
  intros r evs. subst evs.
  destruct (fetch_with_config_events self source_id source_type config
              primary_keys incremental fetch_kwargs σ)
    as (evs & ts & Hnew & Hev & _ & Hts).
  fold r in Hnew, Hev, Hts. rewrite Hnew.
  destruct (acquire_events_once _ _ _ _ Hev) as (Hcs & Hf & _).
  assert (Hutc : ∀ (P : event → bool),
            (∀ t, P (UtcnowCall t) = false) →
            filter (λ ev, P ev) (UtcnowCall <$> ts) = []).
  { intros P HP. clear -HP. induction ts as [|t ts IH]; [done|].
    rewrite fmap_cons, filter_cons_False; [done|].
    simpl. rewrite HP. by intros []. }
  split_and!.
  - intros e. rewrite (acquire_events_raised _ _ _ _ e Hev). split.
    + intros (ev & Hin & Hexc). exists ev. split; [|done].
      apply elem_of_app. by left.
    + intros (ev & [Hin|Hin]%elem_of_app & Hexc); [by exists ev|].
      apply elem_of_utcnow_calls in Hin as [Hnone _]. congruence.
  - intros e He. rewrite Hts by (by rewrite He). rewrite He in Hev.
    rewrite fmap_nil, app_nil_r. by eapply acquire_events_raised_last.
  - rewrite filter_app, Hutc by done. by rewrite app_nil_r.
  - rewrite filter_app, Hutc by done. by rewrite app_nil_r.
Qed.

(** ** The convenience methods *)

(** C4: each convenience method is the generic path called with the tag of
    its kind and the parameter mapping built from its arguments (and the
    key columns and incremental flag of the kind): the same computation,
    hence the same table, in every state. *)
Theorem convenience_methods_forward self source_id (c : convenience_call) :
  convenience_method self source_id c = generic_equivalent self source_id c.
Proof.
  unfold convenience_method, generic_equivalent.
  destruct c; simpl;
    unfold fetch_yfinance_data, fetch_rss_data, fetch_fred_data,
      fetch_bls_data, fetch_fed_stress_data;
    f_equal; apply map_eq; intros k; simpl.
  all: repeat (rewrite lookup_insert; case_decide; simplify_eq; try done);
    by rewrite ?lookup_empty.
Qed.

(** ** The singleton *)

Lemma get_bridge_cached (σ : state) b :
  _bridge σ = Some b → get_bridge σ = (Ok b, σ).
Proof.
  intros Hb. unfold get_bridge, gets. unfold mbind, M_bind. simpl.
  by rewrite Hb.
Qed.

Lemma get_bridge_first (σ : state) :
  _bridge σ = None →
  ∃ σ', get_bridge σ = (Ok (fresh (dom (bridges σ))), σ')
        ∧ _bridge σ' = Some (fresh (dom (bridges σ))).
Proof.
  intros Hb. unfold get_bridge, gets, CDataBridge_new, modify.
  unfold mbind, M_bind, mret, M_ret. simpl. rewrite Hb. simpl.
  by eexists.
Qed.

(** Whatever the global was, [get_bridge] returns the instance that the
    global holds afterwards, and it leaves a global that is set alone. *)
Lemma get_bridge_run (σ : state) :
  ∃ b σ',
    get_bridge σ = (Ok b, σ') ∧ _bridge σ' = Some b
    ∧ (∀ b0, _bridge σ = Some b0 → b = b0).
Proof.
  destruct (_bridge σ) as [b0|] eqn:Hb.
  - exists b0, σ. rewrite (get_bridge_cached σ b0 Hb).
    split_and!; [done|done|]. by intros ? [= ->].
  - destruct (get_bridge_first σ Hb) as (σ' & Hrun & Hb').
    eexists _, σ'. split_and!; [done|done|done].
Qed.

(** [fetch_data] sets the global when it is not set, and never changes a
    global that is set. *)
Lemma fetch_data_global source_id source_type config primary_keys incremental
    (σ : state) :
  let σ' := (fetch_data source_id source_type config primary_keys
               incremental σ).2 in
  is_Some (_bridge σ') ∧ (∀ b0, _bridge σ = Some b0 → _bridge σ' = Some b0).
Proof.
  intros σ'. subst σ'. unfold fetch_data. rewrite bind_run.
  destruct (get_bridge_run σ) as (b & σ0 & -> & Hb & Hsame).
  destruct (fetch_with_config_events b source_id source_type config
              primary_keys incremental ∅ σ0) as (_ & _ & _ & _ & Hg & _).
  rewrite Hg, Hb. split; [by eexists|].
  intros b0 Hb0. by rewrite (Hsame b0 Hb0).
Qed.

Lemma run_call_global (c : call) (σ : state) :
  ∃ b,
    _bridge (run_call c σ).2 = Some b
    ∧ (run_call c σ).1 = (if is_get_bridge c then Some b else None)
    ∧ (∀ b0, _bridge σ = Some b0 → b = b0).
Proof.
  destruct c as [|source_id source_type config primary_keys incremental];
    simpl.
  - destruct (get_bridge_run σ) as (b & σ' & -> & Hb & Hsame). by exists b.
  - destruct (fetch_data_global source_id source_type config primary_keys
                incremental σ) as ([b Hb] & Hsame).
    exists b. split_and!; [done|done|].
    intros b0 Hb0. specialize (Hsame b0 Hb0). congruence.
Qed.

(** Once the global holds an instance, every later call of [get_bridge]
    returns it and the global keeps it. *)
Lemma run_calls_global (cs : list call) : ∀ (σ : state) b,
  _bridge σ = Some b →
  (run_calls cs σ).1 = replicate (length (filter (λ c, is_get_bridge c) cs)) b
  ∧ _bridge (run_calls cs σ).2 = Some b.
Proof.
  induction cs as [|c cs IH]; intros σ b Hb; [done|].
  cbn [run_calls].
  destruct (run_call_global c σ) as (b' & Hb' & Hobs & Hsame).
  rewrite <- (Hsame b Hb) in *. clear Hsame.
  destruct (run_call c σ) as [o σ']. simpl in Hb', Hobs.
  destruct (IH σ' b' Hb') as [IHobs IHb].
  destruct (run_calls cs σ') as [bs σ'']. simpl in *.
  subst o bs. split; [|done].
  destruct c.
  - by rewrite filter_cons_True.
  - by rewrite filter_cons_False by (by intros []).
Qed.

(** C5: in any sequence of calls into the module, all the calls of
    [get_bridge] return one and the same instance, that of the first call;
    a global that holds an instance is never replaced. *)
Theorem get_bridge_returns_the_same_instance (cs : list call) (σ : state) :
  (∃ b, (run_calls cs σ).1
        = replicate (length (filter (λ c, is_get_bridge c) cs)) b)
  ∧ (∀ b0, _bridge σ = Some b0 →
       (run_calls cs σ).1
       = replicate (length (filter (λ c, is_get_bridge c) cs)) b0
       ∧ _bridge (run_calls cs σ).2 = Some b0).
Proof.
  split; [|intros b0 Hb0; by apply run_calls_global].
  destruct cs as [|c cs]; [by exists 0|].
  cbn [run_calls].
  destruct (run_call_global c σ) as (b & Hb & Hobs & _).
  destruct (run_call c σ) as [o σ']. simpl in Hb, Hobs.
  destruct (run_calls_global cs σ' b Hb) as [Hbs _].
  destruct (run_calls cs σ') as [bs σ'']. simpl in *.
  exists b. subst o bs.
  destruct c.
  - by rewrite filter_cons_True.
  - by rewrite filter_cons_False by (by intros []).
Qed.

End BridgeFacts.

(** ** The theorems at concrete runs *)

Lemma pair_of_fst {A B} (p : A * B) (a : A) : p.1 = a → p = (a, p.2).
Proof. destruct p. by intros <-. Qed.

Import Examples.

(** A fetch that returns no record. *)
Lemma empty_result_gives_empty_table_witness :
  ∃ df,
    fetch_series (world_with []) = (Ok df, (acquire_series (world_with [])).2)
    ∧ n_rows df = 0 ∧ n_columns df = 0 ∧ df = pd_DataFrame [].
Proof.
  apply (empty_result_gives_empty_table (Env := Mock.env) 0 "fred_gdp" "fred"
           series ["series_id"; "date"] true ∅ (start (world_with []))
           (acquire_series (world_with [])).2 (mkFetchResult [])).
  - apply pair_of_fst. reflexivity.
  - reflexivity.
Defined.

(** Two records without metadata fields: four columns for two fields. *)
Lemma nonempty_result_columns_witness :
  let result := mkFetchResult [mkRecord 0; mkRecord 1] in
  let σ1 := (acquire_series (world_with two_series)).2 in
  let fields := ⋃ (dom <$> record_fields (heap σ1) result) in
  ∃ df σ',
    fetch_series (world_with two_series) = (Ok df, σ')
    ∧ columns df = fields ∪ metadata_columns
    ∧ (fields ## metadata_columns → n_columns df = size fields + 2)
    ∧ ∀ i, i < n_rows df →
        cell df i "_source_id" = Some (PyStr "fred_gdp")
        ∧ ∃ s, cell df i "_fetched_at" = Some (PyStr s)
               ∧ Datetime.timestamp_syntax s = true.
Proof.
  apply (nonempty_result_columns (Env := Mock.env) 0 "fred_gdp" "fred"
           series ["series_id"; "date"] true ∅ (start (world_with two_series))
           (acquire_series (world_with two_series)).2
           (mkFetchResult [mkRecord 0; mkRecord 1])).
  - apply pair_of_fst. reflexivity.
  - discriminate.
Defined.

Example two_series_table :
  (fetch_series (world_with two_series)).1
  = Ok (pd_DataFrame
          [ {["series_id" := PyStr "GDP"; "value" := PyInt 27;
              "_source_id" := PyStr "fred_gdp";
              "_fetched_at" := PyStr "2024-03-15T09:30:00"]};
            {["series_id" := PyStr "UNRATE";
              "_source_id" := PyStr "fred_gdp";
              "_fetched_at" := PyStr "2024-03-15T09:30:00.250000"]} ]).
Proof. vm_compute. reflexivity. Qed.

(** Two records: two rows, in the order of the records, two readings of
    the clock. *)
Lemma one_row_and_one_clock_reading_per_record_witness :
  let result := mkFetchResult [mkRecord 0; mkRecord 1] in
  let σ := start (world_with two_series) in
  let σ1 := (acquire_series (world_with two_series)).2 in
  ∃ df σ',
    fetch_series (world_with two_series) = (Ok df, σ')
    ∧ n_rows df = length (records result)
    ∧ (∀ i r,
         records result !! i = Some r →
         ∃ t,
           (read_clock (length (records result)) (world σ1)).1 !! i = Some t
           ∧ rows df !! i
             = Some (stamp "fred_gdp" t (deref (heap σ1) (data r))))
    ∧ length (filter (λ ev, is_utcnow ev) (new_events σ σ'))
      = length (records result).
Proof.
  apply (one_row_and_one_clock_reading_per_record (Env := Mock.env) 0
           "fred_gdp" "fred" series ["series_id"; "date"] true ∅
           (start (world_with two_series))
           (acquire_series (world_with two_series)).2
           (mkFetchResult [mkRecord 0; mkRecord 1])).
  - apply pair_of_fst. reflexivity.
  - discriminate.
Defined.

(** The dictionaries of the two records after the run. *)
Lemma record_data_not_mutated_witness :
  let result := mkFetchResult [mkRecord 0; mkRecord 1] in
  let σ1 := (acquire_series (world_with two_series)).2 in
  let σ' := (fetch_series (world_with two_series)).2 in
  heap σ1 ⊆ heap σ'
  ∧ ∀ r, r ∈ records result →
      ∃ d, heap σ1 !! data r = Some d ∧ heap σ' !! data r = Some d.
Proof.
  apply (record_data_not_mutated (Env := Mock.env) 0 "fred_gdp" "fred"
           series ["series_id"; "date"] true ∅ (start (world_with two_series))
           (acquire_series (world_with two_series)).2
           (mkFetchResult [mkRecord 0; mkRecord 1])).
  apply pair_of_fst. reflexivity.
Defined.

Example two_series_records_kept :
  let σ' := (fetch_series (world_with two_series)).2 in
  heap σ' !! 0 = two_series !! 0 ∧ heap σ' !! 1 = two_series !! 1.
Proof. split; vm_compute; reflexivity. Qed.

(** A record that has a field ["_source_id"] with the value ["stale"]. *)
Lemma metadata_fields_overwritten_witness :
  let result := mkFetchResult [mkRecord 0] in
  let σ1 := (acquire_series (world_with stale)).2 in
  let d : gmap string pyval :=
    {["_source_id" := PyStr "stale"; "value" := PyInt 1]} in
  ∃ df σ' t row,
    fetch_series (world_with stale) = (Ok df, σ')
    ∧ (read_clock (length (records result)) (world σ1)).1 !! 0 = Some t
    ∧ cell df 0 "_source_id" = Some (PyStr "fred_gdp")
    ∧ cell df 0 "_fetched_at" = Some (PyStr (Datetime.isoformat t))
    ∧ (∀ k', k' ∉ metadata_columns → cell df 0 k' = d !! k')
    ∧ rows df !! 0 = Some row
    ∧ dom row = dom d ∪ metadata_columns
    ∧ size (dom row) < size (dom d) + 2
    ∧ n_columns df < size (⋃ (dom <$> record_fields (heap σ1) result)) + 2.
Proof.
  apply (metadata_fields_overwritten (Env := Mock.env) 0 "fred_gdp" "fred"
           series ["series_id"; "date"] true ∅ (start (world_with stale))
           (acquire_series (world_with stale)).2
           (mkFetchResult [mkRecord 0]) 0 (mkRecord 0) _ "_source_id").
  - apply pair_of_fst. reflexivity.
  - reflexivity.
  - vm_compute. reflexivity.
  - vm_compute. reflexivity.
  - vm_compute. reflexivity.
Defined.

Example stale_table :
  (fetch_series (world_with stale)).1
  = Ok (pd_DataFrame
          [ {["value" := PyInt 1; "_source_id" := PyStr "fred_gdp";
              "_fetched_at" := PyStr "2024-03-15T09:30:00"]} ]).
Proof. vm_compute. reflexivity. Qed.

(** C2, as stated, fails: the one record already has a field
    ["_source_id"], the union of the fields has two names, and the table
    has three columns, not four. *)
Lemma always_two_more_columns_counterexample :
  ¬ always_two_more_columns (Env := Mock.env) 0 "fred_gdp" "fred" series
      ["series_id"; "date"] true ∅ (start (world_with stale)).
Proof.
  intros Hclaim.
  destruct (Hclaim (mkFetchResult [mkRecord 0])
              (acquire_series (world_with stale)).2)
    as (df & σ' & Hrun & Hcols).
  - apply pair_of_fst. reflexivity.
  - intros Hnil. inversion Hnil.
  - clear Hclaim.
    assert (Hdf : (fetch_series (world_with stale)).1 = Ok df).
    { unfold fetch_series. by rewrite Hrun. }
    clear Hrun. rewrite stale_table in Hdf. injection Hdf as <-.
    vm_compute in Hcols. inversion Hcols.
Qed.

(** C6, as stated, fails: [get_registry] raises, the path raises, and
    neither [create_source] nor [fetch] was called. *)
Lemma raises_iff_create_source_or_fetch_raises_counterexample :
  ¬ raises_iff_create_source_or_fetch_raises (Env := Mock.env) 0 "fred_gdp"
      "fred" series ["series_id"; "date"] true ∅ (start registry_down).
Proof.
  unfold raises_iff_create_source_or_fetch_raises. cbv zeta.
  intros [Hraised _].
  destruct Hraised as (ev & Hin & Hkind & _).
  - exists "registry unavailable". reflexivity.
  - replace (new_events _ _)
      with [SourceConfigCall (Env := Mock.env)
              (SourceConfig.mk "fred_gdp" "fred_gdp" "fred" series
                 ["series_id"; "date"] true) None;
            GetRegistryCall (Env := Mock.env) (Some "registry unavailable")]
      in Hin by reflexivity.
    apply elem_of_cons in Hin as [->|Hin]; [discriminate|].
    apply elem_of_cons in Hin as [->|Hin]; [discriminate|].
    by apply elem_of_nil in Hin.
Qed.

(** Keyword parameters of the call against the base configuration: the
    fetch receives ["series"] from the call and ["limit"] besides. *)
Example kwargs_take_precedence :
  let fetch_kwargs : gmap string pyval :=
    {["series" := PyList [PyStr "CPI"]; "limit" := PyInt 5]} in
  let σ := start (world_with []) in
  let r := _fetch_with_config (Env := Mock.env) 0 "fred_gdp" "fred" series
             ["series_id"; "date"] true fetch_kwargs σ in
  ∃ src, new_events σ r.2 !! 3
         = Some (FetchCall (Env := Mock.env) src
                   {["series" := PyList [PyStr "CPI"]; "limit" := PyInt 5]}
                   None).
Proof. eexists. reflexivity. Qed.

(** The bridge created by the first call is the one every call returns. *)
Example three_calls :
  (run_calls (Env := Mock.env)
     [CallGetBridge; CallFetchData "fred_gdp" "fred" series [] true;
      CallGetBridge]
     (State (Env := Mock.env) ∅ ∅ None (world_with two_series) [])).1
  = [0; 0].
Proof. reflexivity. Qed.

Example registry_down_raises :
  (fetch_series registry_down).1 = Raise "registry unavailable".
Proof. reflexivity. Qed.

(** ** The thumbnail script *)

Section ThumbnailFacts.
Import Thumbnail.
Variable gaussian_kde : list float → float → list float → list float.

Lemma elem_of_below_cutoff (vals : list float) (d : float) :
  d ∈ below_cutoff vals ↔ d ∈ vals ∧ (d <=? 200)%float = true.
Proof. unfold below_cutoff. by rewrite !list_elem_of_In, filter_In. Qed.

Lemma elem_of_abs_differences (ratio d : float) :
  d ∈ abs_differences ratio ↔
  ∃ p q : Z,
    (1 ≤ p ≤ 30)%Z ∧ (1 ≤ q ≤ 30)%Z
    ∧ d = PrimFloat.abs (of_int p * f0 - of_int q * f0 * ratio)%float.
Proof.
  unfold abs_differences, fA, fB, partials.
  rewrite list_elem_of_bind. split.
  - intros (a & Hd & Ha).
    apply list_elem_of_fmap in Hd as (b & -> & Hb).
    apply list_elem_of_fmap in Ha as (p & -> & Hp).
    apply list_elem_of_fmap in Hb as (q & -> & Hq).
    apply elem_of_seqZ in Hp, Hq. exists p, q. split_and!; [lia..|done].
  - intros (p & q & Hp & Hq & ->).
    exists (of_int p * f0)%float. split.
    + apply list_elem_of_fmap. eexists. split; [reflexivity|].
      apply list_elem_of_fmap. exists q. split; [done|].
      apply elem_of_seqZ. lia.
    + apply list_elem_of_fmap. exists p. split; [done|].
      apply elem_of_seqZ. lia.
Qed.

(** C8: for each of the four ratios, the values passed to the density
    estimator are exactly the absolute differences of a partial [p] of the
    first tone and a partial [q] of the second, [p] and [q] from 1 to 30,
    that are at most 200 (computed in binary64); the estimator is called on
    them with the fixed bandwidth, and its values are multiplied by the
    number of retained differences, one per pair [(p, q)]. *)
Theorem density_estimator_inputs :
  let st := density_loop gaussian_kde in
  (λ interval, interval.1.2) <$> intervals = ratios
  ∧ kde_calls st = (λ r, (delta_vals r, bw_method)) <$> ratios
  ∧ ys st = density gaussian_kde <$> ratios
  ∧ ∀ r d,
      d ∈ delta_vals r ↔
      (∃ p q : Z,
         (1 ≤ p ≤ 30)%Z ∧ (1 ≤ q ≤ 30)%Z
         ∧ d = PrimFloat.abs (of_int p * f0 - of_int q * f0 * r)%float)
      ∧ (d <=? 200)%float = true.
Proof.
  split_and!; [reflexivity|reflexivity|reflexivity|].
  intros r d. unfold delta_vals.
  by rewrite elem_of_below_cutoff, elem_of_abs_differences.
Qed.

(** How many of the 900 differences are retained for each ratio. *)
Example retained_counts :
  (λ r, length (abs_differences r)) <$> ratios = [900; 900; 900; 900]
  ∧ (λ r, length (delta_vals r)) <$> ratios = [44; 49; 52; 53].
Proof. split; vm_compute; reflexivity. Qed.

End ThumbnailFacts.

(** * Further properties of the bridge *)

Section BridgeExtras.
Context `{Env : Environment}.

(** ** The [registry] property *)

Lemma registry_cached self (σ : state) reg :
  cached_registry σ self = Some reg → registry self σ = (Ok reg, σ).
Proof.
  unfold cached_registry. intros Hc.
  unfold registry. rewrite bind_run. unfold gets. cbv beta iota.
  by rewrite Hc.
Qed.

Lemma registry_load self (σ : state) :
  cached_registry σ self = None →
  registry self σ =
  match get_registry (world σ) with
  | (Ok reg, w) =>
      (Ok reg,
       State (heap σ) (<[self := mkCDataBridge (Some reg)]> (bridges σ))
         (_bridge σ) w (trace σ ++ [GetRegistryCall None]))
  | (Raise e, w) =>
      (Raise e,
       State (heap σ) (bridges σ) (_bridge σ) w
         (trace σ ++ [GetRegistryCall (Some e)]))
  end.
Proof.
  unfold cached_registry. intros Hc.
  unfold registry. rewrite bind_run. unfold gets. cbv beta iota.
  rewrite Hc. unfold call_get_registry, external, modify.
  unfold mbind, M_bind, mret, M_ret.
  by destruct (get_registry (world σ)) as [[reg|e] w].
Qed.

(** X1: once the [registry] property has returned a registry, the bridge
    holds it: the next access returns the same registry and changes
    nothing, so [get_registry] is not called again. *)
Theorem registry_is_loaded_once self (σ σ' : state) reg :
  registry self σ = (Ok reg, σ') →
  cached_registry σ' self = Some reg ∧ registry self σ' = (Ok reg, σ').
Proof.
  intros Hrun.
  assert (Hc : cached_registry σ' self = Some reg).
  { destruct (cached_registry σ self) as [reg0|] eqn:Hcached.
    - rewrite (registry_cached _ _ _ Hcached) in Hrun. by simplify_eq.
    - rewrite (registry_load _ _ Hcached) in Hrun.
      destruct (get_registry (world σ)) as [[reg1|e] w]; simplify_eq.
      unfold cached_registry. simpl. by rewrite lookup_insert_eq. }
  split; [done|by apply registry_cached].
Qed.

(** X2: when [get_registry] raises, the [registry] property raises the
    same exception and caches nothing: the bridges, the store and the global
    are as before, and the next access calls [get_registry] again. *)
Theorem registry_failure_is_not_cached self (σ σ' : state) e :
  registry self σ = (Raise e, σ') →
  new_events σ σ' = [GetRegistryCall (Some e)]
  ∧ bridges σ' = bridges σ ∧ heap σ' = heap σ ∧ _bridge σ' = _bridge σ
  ∧ ∃ exc, new_events σ' (registry self σ').2 = [GetRegistryCall exc].
Proof.
  intros Hrun.
  destruct (cached_registry σ self) as [reg0|] eqn:Hcached.
  { by rewrite (registry_cached _ _ _ Hcached) in Hrun. }
  rewrite (registry_load _ _ Hcached) in Hrun.
  destruct (get_registry (world σ)) as [[reg1|e1] w] eqn:Hget; simplify_eq.
  split_and!; [by apply new_events_app|done..|].
  rewrite registry_load by done. simpl.
  destruct (get_registry w) as [[reg2|e2] w2]; eexists; by apply new_events_app.
Qed.

(** ** What a run does to the bridges *)

(* The calls of [acquire] laid out, then a case for each outcome. *)
Ltac acquire_cases self :=
  unfold acquire, _create_source_config, call_SourceConfig, registry,
    call_get_registry, call_create_source, call_fetch, external, gets, modify;
  unfold mbind, M_bind, mret, M_ret; simpl;
  match goal with
  | |- context [SourceConfig_new ?kw ?w] =>
      destruct (SourceConfig_new kw w) as [[?|?] ?]; simpl
  end;
  try (match goal with
       | |- context [bridges ?σ !! self] =>
           destruct (bridges σ !! self) as [[[?|]]|] eqn:?; simpl
       end;
       repeat match goal with
         | |- context [get_registry ?w] =>
             destruct (get_registry w) as [[?|?] ?]; simpl
         | |- context [create_source ?reg ?cfg ?w] =>
             destruct (create_source reg cfg w) as [[?|?] ?]; simpl
         | |- context [source_fetch ?src ?p ?wh] =>
             destruct (source_fetch src p wh) as [? [? ?]] eqn:?; simpl
         end).

Lemma acquire_registry self source_id source_type config primary_keys
    incremental fetch_kwargs (σ : state) :
  let r := acquire self source_id source_type config primary_keys incremental
             fetch_kwargs σ in
  let evs := new_events σ r.2 in
  (∀ other, other ≠ self → bridges r.2 !! other = bridges σ !! other)
  ∧ (is_Some (cached_registry σ self) →
     bridges r.2 = bridges σ ∧ filter (λ ev, is_get_registry ev) evs = [])
  ∧ (raised r.1 = None → is_Some (cached_registry r.2 self))
  ∧ length (filter (λ ev, is_get_registry ev) evs) ≤ 1
  ∧ (filter (λ ev, is_registry_loaded ev) evs ≠ [] →
     is_Some (cached_registry r.2 self)).
Proof.
  intros r evs. subst r evs. unfold cached_registry, new_events.
  acquire_cases self; rewrite <- ?(assoc_L (++)), drop_app_length;
    split_and!.
  all: try (intros other Hother; by rewrite ?lookup_insert_ne).
  all: try (by intros [? [=]]).
  all: try (by intros [=]).
  all: try (intros Hne; exfalso; apply Hne; reflexivity).
  all: try (intros; rewrite ?lookup_insert_eq; by eexists).
  all: try (vm_compute; lia).
  all: try (vm_compute; by intros []).
  all: try done.
  all: intros _;
    match goal with H : bridges _ !! _ = _ |- _ => rewrite H end;
    by eexists.
Qed.

Lemma filter_utcnow_calls (P : event → bool) (ts : list datetime) :
  (∀ t, P (UtcnowCall t) = false) →
  filter (λ ev, P ev) (UtcnowCall <$> ts) = [].
Proof.
  intros HP. induction ts as [|t ts IH]; [done|].
  rewrite fmap_cons, filter_cons_False; [done|].
  simpl. rewrite HP. by intros [].
Qed.

Lemma filter_loaded_le (evs : list event) :
  length (filter (λ ev, is_registry_loaded ev) evs)
  ≤ length (filter (λ ev, is_get_registry ev) evs).
Proof.
  induction evs as [|ev evs IH]; [done|].
  destruct ev as [| [e|] | | |];
    rewrite ?filter_cons_True, ?filter_cons_False by (simpl; tauto);
    simpl; lia.
Qed.

(** The same for the whole path: the conversion of the result reads the
    clock and touches no bridge. *)
Lemma fetch_with_config_registry self source_id source_type config
    primary_keys incremental fetch_kwargs (σ : state) :
  let r := _fetch_with_config self source_id source_type config primary_keys
             incremental fetch_kwargs σ in
  let evs := new_events σ r.2 in
  (∀ other, other ≠ self → bridges r.2 !! other = bridges σ !! other)
  ∧ (is_Some (cached_registry σ self) →
     bridges r.2 = bridges σ ∧ filter (λ ev, is_get_registry ev) evs = [])
  ∧ (raised r.1 = None → is_Some (cached_registry r.2 self))
  ∧ length (filter (λ ev, is_get_registry ev) evs) ≤ 1
  ∧ (filter (λ ev, is_registry_loaded ev) evs ≠ [] →
     is_Some (cached_registry r.2 self))
  ∧ trace r.2 = trace σ ++ evs.
Proof.
  intros r evs. subst r evs. rewrite fetch_with_config_run.
  pose proof (acquire_registry self source_id source_type config primary_keys
                incremental fetch_kwargs σ) as Hacq.
  destruct (acquire_run self source_id source_type config primary_keys
              incremental fetch_kwargs σ) as (evs & Htr & _ & _).
  cbv zeta in Hacq.
  destruct (acquire _ _ _ _ _ _ _ σ) as [[result|e] σ1]; simpl in *.
  - destruct (reshape_run source_id result σ1)
      as (df & h' & -> & _ & _ & _).
    rewrite (new_events_app _ _ _ Htr) in Hacq.
    set (ts := (read_clock _ _).1). unfold cached_registry in *. simpl.
    rewrite (new_events_app _ _ (evs ++ (UtcnowCall <$> ts)))
      by (simpl; by rewrite Htr, <- (assoc_L (++))).
    rewrite !filter_app, !filter_utcnow_calls, !app_nil_r by done.
    destruct Hacq as (? & ? & ? & ? & ?).
    split_and!; try done. by rewrite Htr, <- (assoc_L (++)).
  - rewrite (new_events_app _ _ _ Htr) in Hacq |- *.
    destruct Hacq as (? & ? & ? & ? & ?). by split_and!.
Qed.

(** X3: a run of the generic path on one bridge leaves every other bridge
    and the global as they were; when it returns a table the bridge holds a
    registry, and when the bridge held one before, no bridge changes and
    [get_registry] is not called. *)
Theorem fetch_touches_only_its_bridge self source_id source_type config
    primary_keys incremental fetch_kwargs (σ : state) :
  let r := _fetch_with_config self source_id source_type config primary_keys
             incremental fetch_kwargs σ in
  (∀ other, other ≠ self → bridges r.2 !! other = bridges σ !! other)
  ∧ _bridge r.2 = _bridge σ
  ∧ (raised r.1 = None → is_Some (cached_registry r.2 self))
  ∧ (is_Some (cached_registry σ self) →
     bridges r.2 = bridges σ
     ∧ filter (λ ev, is_get_registry ev) (new_events σ r.2) = []).
Proof.
  intros r.
  destruct (fetch_with_config_registry self source_id source_type config
              primary_keys incremental fetch_kwargs σ)
    as (Hframe & Hcached & Hok & _ & _ & _).
  destruct (fetch_with_config_events self source_id source_type config
              primary_keys incremental fetch_kwargs σ)
    as (_ & _ & _ & _ & Hglobal & _).
  by split_and!.
Qed.

(** ** The registry over a process *)

Lemma get_bridge_new (σ : state) :
  _bridge σ = None →
  get_bridge σ =
  (Ok (fresh (dom (bridges σ))),
   State (heap σ)
     (<[fresh (dom (bridges σ)) := mkCDataBridge None]> (bridges σ))
     (Some (fresh (dom (bridges σ)))) (world σ) (trace σ)).
Proof.
  intros Hb. unfold get_bridge, gets, CDataBridge_new, modify.
  unfold mbind, M_bind, mret, M_ret. simpl. by rewrite Hb.
Qed.

Lemma get_bridge_trace (σ : state) :
  trace (get_bridge σ).2 = trace σ
  ∧ (registry_loaded σ → get_bridge σ = (Ok (default 0 (_bridge σ)), σ))
  ∧ ∃ b, (get_bridge σ).1 = Ok b ∧ _bridge (get_bridge σ).2 = Some b.
Proof.
  destruct (_bridge σ) as [b|] eqn:Hb.
  - rewrite (get_bridge_cached σ b Hb). split_and!; [done|done|by exists b].
  - rewrite (get_bridge_new σ Hb). split_and!; [done| |by eexists].
    intros (b & Hb' & _). congruence.
Qed.

(** One call: at most one registry is loaded; a process that has its
    registry keeps it and loads none. *)
Lemma run_call_registry (c : call) (σ : state) :
  ∃ evs,
    trace (run_call c σ).2 = trace σ ++ evs
    ∧ length (filter (λ ev, is_registry_loaded ev) evs) ≤ 1
    ∧ (registry_loaded σ →
       registry_loaded (run_call c σ).2
       ∧ filter (λ ev, is_registry_loaded ev) evs = [])
    ∧ (filter (λ ev, is_registry_loaded ev) evs ≠ [] →
       registry_loaded (run_call c σ).2).
Proof.
  destruct (get_bridge_trace σ) as (Htr0 & Hloaded0 & b & Hb1 & Hb2).
  destruct c as [|source_id source_type config primary_keys incremental];
    simpl.
  - exists []. destruct (get_bridge σ) as [[b'|e] σ0] eqn:Hg; simpl in *;
      rewrite app_nil_r.
    + split_and!; [done|simpl; lia| |done].
      intros Hl. specialize (Hloaded0 Hl). by simplify_eq.
    + split_and!; [done|simpl; lia| |done].
      intros Hl. specialize (Hloaded0 Hl). by simplify_eq.
  - unfold fetch_data. rewrite bind_run.
    destruct (get_bridge σ) as [[b'|e] σ0] eqn:Hg; simpl in *; [|done].
    assert (b' = b) as -> by congruence. clear Hb1.
    destruct (fetch_with_config_registry b source_id source_type config
                primary_keys incremental ∅ σ0)
      as (_ & Hcached & _ & Hone & Hload & Htr).
    destruct (fetch_with_config_events b source_id source_type config
                primary_keys incremental ∅ σ0)
      as (_ & _ & _ & _ & Hglobal & _).
    set (r := _fetch_with_config _ _ _ _ _ _ _ σ0) in *.
    exists (new_events σ0 r.2). rewrite Htr, Htr0.
    pose proof (filter_loaded_le (new_events σ0 r.2)) as Hle.
    split_and!; [done|lia| |].
    + intros Hl. specialize (Hloaded0 Hl).
      assert (σ0 = σ) as -> by congruence.
      destruct Hl as (b0 & Hb0 & Hsome).
      assert (b0 = b) as -> by congruence.
      destruct (Hcached Hsome) as [Hsame Hnone].
      split.
      * exists b. split; [congruence|].
        unfold cached_registry in *. by rewrite Hsame.
      * rewrite Hnone in Hle. simpl in Hle.
        by apply length_zero_iff_nil; lia.
    + intros Hne. exists b. split; [congruence|by apply Hload].
Qed.

Lemma run_calls_registry (cs : list call) : ∀ (σ : state),
  ∃ evs,
    trace (run_calls cs σ).2 = trace σ ++ evs
    ∧ length (filter (λ ev, is_registry_loaded ev) evs) ≤ 1
    ∧ (registry_loaded σ → filter (λ ev, is_registry_loaded ev) evs = []).
Proof.
  induction cs as [|c cs IH]; intros σ.
  - exists []. simpl. rewrite app_nil_r. split_and!; [done|simpl; lia|done].
  - cbn [run_calls].
    destruct (run_call_registry c σ) as (evs1 & Htr1 & Hone1 & Hkeep & Hload).
    destruct (run_call c σ) as [o σ1]. simpl in *.
    destruct (IH σ1) as (evs2 & Htr2 & Hone2 & Hnone2).
    destruct (run_calls cs σ1) as [bs σ2]. simpl in *.
    exists (evs1 ++ evs2). rewrite Htr2, Htr1, (assoc_L (++)), filter_app,
      length_app.
    split_and!; [done| |].
    + destruct (filter (λ ev, is_registry_loaded ev) evs1) as [|ev1 l1] eqn:H1.
      * simpl. lia.
      * rewrite Hnone2 by (by apply Hload). simpl in *. lia.
    + intros Hl. destruct (Hkeep Hl) as [Hl1 ->].
      by rewrite Hnone2.
Qed.

(** X4: in any sequence of calls into the module, from any state,
    [get_registry] returns a registry at most once: the process-wide bridge
    keeps the first registry it gets, and every later fetch uses it. *)
Theorem registry_is_loaded_at_most_once (cs : list call) (σ : state) :
  length (filter (λ ev, is_registry_loaded ev)
            (new_events σ (run_calls cs σ).2)) ≤ 1
  ∧ (registry_loaded σ →
     filter (λ ev, is_registry_loaded ev) (new_events σ (run_calls cs σ).2)
     = []).
Proof.
  destruct (run_calls_registry cs σ) as (evs & Htr & Hone & Hnone).
  by rewrite (new_events_app _ _ _ Htr).
Qed.

(** ** The configuration object *)

Lemma acquire_events_head kw params evs exc :
  acquire_events kw params evs exc →
  ∃ exc0 rest,
    evs = SourceConfigCall kw exc0 :: rest
    ∧ filter (λ ev, is_source_config ev) rest = [].
Proof.
  intros [? | ? | ? ? ? ? [] | ? ? ? ? ? []]; by eexists _, _.
Qed.

(** X5: the first external call of the generic path is the construction of
    the configuration object, with the source identifier as both [id] and
    [name], the source type, the base configuration (the per-call keyword
    parameters are not in it), the key columns and the flag; no second
    configuration object is built. *)
Theorem source_config_is_built_first self source_id source_type config
    primary_keys incremental fetch_kwargs (σ : state) :
  let kw := SourceConfig.mk source_id source_id source_type config
              primary_keys incremental in
  let r := _fetch_with_config self source_id source_type config primary_keys
             incremental fetch_kwargs σ in
  ∃ exc rest,
    new_events σ r.2 = SourceConfigCall kw exc :: rest
    ∧ filter (λ ev, is_source_config ev) rest = [].
Proof.
  intros kw r.
  destruct (fetch_with_config_events self source_id source_type config
              primary_keys incremental fetch_kwargs σ)
    as (evs & ts & Hnew & Hev & _ & _).
  fold kw r in Hnew, Hev.
  destruct (acquire_events_head _ _ _ _ Hev) as (exc & rest & -> & Hrest).
  exists exc, (rest ++ (UtcnowCall <$> ts)). split; [done|].
  by rewrite filter_app, Hrest, filter_utcnow_calls.
Qed.

(** ** The clock and the store *)

(** X6: the clock is read exactly as many times as the returned table has
    rows: once per row of a table, not at all for an empty table or when the
    path raises. *)
Theorem clock_is_read_once_per_row self source_id source_type config
    primary_keys incremental fetch_kwargs (σ : state) :
  let r := _fetch_with_config self source_id source_type config primary_keys
             incremental fetch_kwargs σ in
  length (filter (λ ev, is_utcnow ev) (new_events σ r.2)) = rows_returned r.1.
Proof.
  intros r. subst r. rewrite fetch_with_config_run.
  destruct (acquire_run self source_id source_type config primary_keys
              incremental fetch_kwargs σ) as (evs & Htr & Hev & _).
  destruct (acquire_events_once _ _ _ _ Hev) as (_ & _ & Hno).
  destruct (acquire _ _ _ _ _ _ _ σ) as [[result|e] σ1]; simpl in *.
  - destruct (reshape_run source_id result σ1)
      as (df & h' & -> & _ & Hrows & _). simpl.
    erewrite new_events_app;
      [|simpl; rewrite Htr, <- (assoc_L (++)); reflexivity].
    rewrite filter_app, Hno, Hrows. simpl.
    set (ts := (read_clock _ _).1).
    rewrite <- (length_read_clock (length (records result)) (world σ1)).
    fold ts. clear. induction ts as [|t ts IH]; [done|].
    rewrite fmap_cons, filter_cons_True by done. simpl. by rewrite IH.
  - by rewrite (new_events_app _ _ _ Htr), Hno.
Qed.

(** The locations of the rows: new, pairwise distinct, and the only
    change to the domain of the store. *)
Lemma for_each_add_metadata_dom source_id rs : ∀ acc (σ : state),
  ∃ ls,
    (for_each (add_metadata source_id) rs acc σ).1 = Ok (acc ++ ls)
    ∧ length ls = length rs
    ∧ NoDup ls
    ∧ (∀ l, l ∈ ls → l ∉ dom (heap σ))
    ∧ dom (heap (for_each (add_metadata source_id) rs acc σ).2)
      = dom (heap σ) ∪ list_to_set ls.
Proof.
  induction rs as [|r rs IH]; intros acc σ.
  - exists []. simpl. rewrite app_nil_r.
    split_and!; [done|done|constructor|by intros ? ?%elem_of_nil|set_solver].
  - cbn [for_each]. rewrite bind_run, add_metadata_run. cbv zeta.
    set (row := fresh (dom (heap σ))).
    set (σ1 := State _ _ _ _ _).
    destruct (IH (acc ++ [row]) σ1) as (ls & Hrun & Hlen & Hnd & Hnew & Hdom).
    assert (Hrow : row ∉ dom (heap σ)) by apply is_fresh.
    assert (Hdom1 : dom (heap σ1) = {[row]} ∪ dom (heap σ)).
    { subst σ1. simpl. by rewrite dom_insert_L. }
    exists (row :: ls). rewrite Hrun, Hdom, Hdom1, <- (assoc_L (++)).
    split_and!; [done|simpl; by rewrite Hlen| | |set_solver].
    + constructor; [|done]. intros Hin. apply (Hnew row Hin).
      rewrite Hdom1. set_solver.
    + intros l [->|Hl]%elem_of_cons; [done|].
      intros Hl'. apply (Hnew l Hl). rewrite Hdom1. set_solver.
Qed.

(** X7: when the fetch returns, the generic path creates exactly one new
    dictionary per record, and no other: the store has the dictionaries it
    had when the fetch returned, and one more for each record. *)
Theorem one_new_dictionary_per_record self source_id source_type config
    primary_keys incremental fetch_kwargs (σ σ1 : state) result :
  acquire self source_id source_type config primary_keys incremental
    fetch_kwargs σ = (Ok result, σ1) →
  let σ' := (_fetch_with_config self source_id source_type config
               primary_keys incremental fetch_kwargs σ).2 in
  dom (heap σ1) ⊆ dom (heap σ')
  ∧ size (dom (heap σ')) = size (dom (heap σ1)) + length (records result).
Proof.
  intros Hacq σ'. subst σ'. rewrite fetch_with_config_run, Hacq.
  unfold reshape.
  destruct (records result) as [|r rs] eqn:Hrs; [simpl; split; [done|lia]|].
  rewrite bind_run.
  destruct (for_each_add_metadata_dom source_id (r :: rs) [] σ1)
    as (ls & Hrun & Hlen & Hnd & Hnew & Hdom).
  destruct (for_each _ _ _ σ1) as [[rows|e] σ2]; simpl in *; [|done].
  rewrite Hdom. split; [set_solver|].
  rewrite size_union by set_solver.
  by rewrite size_list_to_set, Hlen.
Qed.

(** ** The module-level functions and the convenience methods *)

(** X8: [get_bridge] is lazy: it makes no external call, leaves the store,
    the world and every existing bridge as they were, and a bridge it
    creates is a new object that has not loaded the registry. *)
Theorem get_bridge_is_lazy (σ : state) :
  let r := get_bridge σ in
  new_events σ r.2 = []
  ∧ heap r.2 = heap σ ∧ world r.2 = world σ
  ∧ (∀ l x, bridges σ !! l = Some x → bridges r.2 !! l = Some x)
  ∧ (_bridge σ = None →
     ∃ b, r.1 = Ok b ∧ _bridge r.2 = Some b ∧ bridges σ !! b = None
          ∧ bridges r.2 !! b = Some (mkCDataBridge None)).
Proof.
  intros r. subst r. destruct (_bridge σ) as [b|] eqn:Hb.
  - rewrite (get_bridge_cached σ b Hb). simpl.
    split_and!; [|done..]. apply new_events_app. by rewrite app_nil_r.
  - rewrite (get_bridge_new σ Hb). simpl.
    assert (Hfresh : bridges σ !! fresh (dom (bridges σ)) = None)
      by apply not_elem_of_dom, is_fresh.
    split_and!; [|done|done| |].
    + apply new_events_app. simpl. by rewrite app_nil_r.
    + intros l x Hl. rewrite lookup_insert_ne; [done|]. intros <-. congruence.
    + intros _. eexists. split_and!; [done|done|done|].
      apply lookup_insert_eq.
Qed.

Lemma acquire_events_config kw params evs exc kw' exc' :
  acquire_events kw params evs exc →
  SourceConfigCall kw' exc' ∈ evs → kw' = kw.
Proof.
  intros [] Hin; repeat
    (apply elem_of_cons in Hin as [Hin|Hin] || apply elem_of_app in Hin as [Hin|Hin]);
    try discriminate; try (by apply elem_of_nil in Hin);
    try (by eapply registry_events_inv in Hin; [discriminate|]);
    congruence.
Qed.

(** What the framework receives from a call without keyword parameters:
    the configuration mapping as it is. *)
Lemma plain_call_arguments self source_id source_type config primary_keys
    incremental (σ : state) :
  let r := _fetch_with_config self source_id source_type config primary_keys
             incremental ∅ σ in
  (∀ src params exc,
     FetchCall src params exc ∈ new_events σ r.2 → params = config)
  ∧ (∀ kw exc,
       SourceConfigCall kw exc ∈ new_events σ r.2 →
       kw = SourceConfig.mk source_id source_id source_type config
              primary_keys incremental).
Proof.
  intros r.
  destruct (fetch_with_config_events self source_id source_type config
              primary_keys incremental ∅ σ) as (evs & ts & Hnew & Hev & _ & _).
  fold r in Hnew, Hev. rewrite Hnew. split.
  - intros src params exc [Hin|Hin]%elem_of_app.
    + rewrite (acquire_events_fetch _ _ _ _ _ _ _ Hev Hin).
      by rewrite (left_id_L ∅ (∪)).
    + by apply elem_of_utcnow_calls in Hin as [_ ?].
  - intros kw exc [Hin|Hin]%elem_of_app.
    + by eapply acquire_events_config.
    + by apply list_elem_of_fmap in Hin as (? & ? & _).
Qed.

(** X9: whatever a convenience method is called with, the fetch it leads
    to receives exactly the mapping of its arguments (for the price history:
    the symbols, and the period and interval given or ["1y"] and ["1d"]), and
    the configuration object is built from the same mapping, the tag of the
    kind, and the key columns and incremental flag of the kind. *)
Theorem convenience_method_arguments self source_id (c : convenience_call)
    (σ : state) :
  let r := convenience_method self source_id c σ in
  (∀ src params exc,
     FetchCall src params exc ∈ new_events σ r.2 → params = call_mapping c)
  ∧ (∀ kw exc,
       SourceConfigCall kw exc ∈ new_events σ r.2 →
       kw = SourceConfig.mk source_id source_id (kind_tag (call_kind c))
              (call_mapping c) (kind_primary_keys (call_kind c))
              (kind_incremental (call_kind c))).
Proof.
  assert (Hfwd : convenience_method self source_id c
                 = _fetch_with_config self source_id (kind_tag (call_kind c))
                     (call_mapping c) (kind_primary_keys (call_kind c))
                     (kind_incremental (call_kind c)) ∅).
  { destruct c; simpl;
      unfold fetch_yfinance_data, fetch_rss_data, fetch_fred_data,
        fetch_bls_data, fetch_fed_stress_data;
      f_equal; apply map_eq; intros k; simpl.
    all: repeat (rewrite lookup_insert; case_decide; simplify_eq; try done);
      by rewrite ?lookup_empty. }
  rewrite Hfwd. apply plain_call_arguments.
Qed.


End BridgeExtras.

(** ** The shape of the timestamp *)

Section TimestampShape.
Import Datetime.

(** X11: the string that [isoformat] gives for the fetch timestamp has 19
    characters when the microseconds of the clock reading are zero and 26
    otherwise: rows of one table can carry timestamps of both shapes. *)
Theorem isoformat_length (t : datetime) :
  String.length (isoformat t)
  = if (microsecond t =? 0)%N then 19 else 26.
Proof.
  destruct (datetime_bounds t) as (Hy & Hmo & Hd & Hh & Hmi & Hs & Hus).
  unfold isoformat.
  rewrite !string_length_app, !length_fmt_d by (done || lia).
  destruct (microsecond t =? 0)%N; [done|].
  rewrite string_length_app, length_fmt_d by (done || lia). done.
Qed.

End TimestampShape.

(** * Further properties of the thumbnail script *)

Section ThumbnailExtras.
Import Thumbnail.

Lemma SFmul_comm prec emax (a b : spec_float) :
  SFmul prec emax a b = SFmul prec emax b a.
Proof.
  destruct a as [sa|sa| |sa ma ea], b as [sb|sb| |sb mb eb]; simpl;
    rewrite ?(xorb_comm sa sb); try reflexivity.
  by rewrite (Pos.mul_comm ma mb), (Z.add_comm ea eb).
Qed.

(** Multiplication in binary64 is commutative. *)
Lemma float_mul_comm (a b : float) : (a * b = b * a)%float.
Proof.
  rewrite <- (SF2Prim_Prim2SF (a * b)), <- (SF2Prim_Prim2SF (b * a)).
  rewrite !mul_spec. unfold SF64mul. by rewrite SFmul_comm.
Qed.

(** An absolute value that is at most 200 is not NaN and not negative. *)
Lemma abs_leb_nonneg (a : float) :
  (PrimFloat.abs a <=? 200)%float = true →
  (0 <=? PrimFloat.abs a)%float = true.
Proof.
  rewrite !leb_spec, abs_spec.
  by destruct (Prim2SF a) as [[]|[]| |[] m e].
Qed.

(** X12: for every ratio, each value given to the density estimator is a
    number from 0 to 200 (in particular not NaN), and there are at most 900
    of them, one candidate per pair of partials. *)
Theorem retained_differences_in_range (ratio : float) :
  Forall (λ d, (0 <=? d)%float = true ∧ (d <=? 200)%float = true)
    (delta_vals ratio)
  ∧ length (abs_differences ratio) = 900
  ∧ length (delta_vals ratio) ≤ 900.
Proof.
  assert (Hall : length (abs_differences ratio) = 900)
    by (vm_compute; reflexivity).
  split_and!; [|done|].
  - apply Forall_forall. intros d Hd. unfold delta_vals in Hd.
    apply elem_of_below_cutoff in Hd as [Hd Hle]. split; [|done].
    apply elem_of_abs_differences in Hd as (p & q & _ & _ & ->).
    by apply abs_leb_nonneg.
  - unfold delta_vals, below_cutoff. rewrite <- Hall.
    apply List.filter_length_le.
Qed.

(** X13: where the marker of an interval is drawn, [abs(f0 - ratio * f0)],
    is the difference of the two fundamentals, so it is one of the pairwise
    differences for every ratio; for each of the four intervals it is at most
    200, hence among the values given to the estimator, whose sample is
    therefore never empty. *)
Theorem fundamental_difference_is_retained :
  (∀ ratio,
     delta_f_fund ratio
     = PrimFloat.abs (of_int 1 * f0 - of_int 1 * f0 * ratio)%float
     ∧ delta_f_fund ratio ∈ abs_differences ratio)
  ∧ Forall (λ ratio, delta_f_fund ratio ∈ delta_vals ratio) ratios.
Proof.
  assert (Hone : (of_int 1 * f0)%float = f0) by (vm_compute; reflexivity).
  assert (Hgen : ∀ ratio,
            delta_f_fund ratio
            = PrimFloat.abs (of_int 1 * f0 - of_int 1 * f0 * ratio)%float
            ∧ delta_f_fund ratio ∈ abs_differences ratio).
  { intros ratio.
    assert (Heq : delta_f_fund ratio
                  = PrimFloat.abs
                      (of_int 1 * f0 - of_int 1 * f0 * ratio)%float).
    { unfold delta_f_fund. by rewrite Hone, (float_mul_comm ratio f0). }
    split; [done|]. rewrite Heq at 1.
    apply elem_of_abs_differences. exists 1%Z, 1%Z. by split_and!. }
  split; [done|].
  unfold ratios. repeat apply Forall_cons_2; [..|apply Forall_nil_2];
    (unfold delta_vals; apply elem_of_below_cutoff;
     split; [apply Hgen|vm_compute; reflexivity]).
Qed.

End ThumbnailExtras.

(** ** The further properties at concrete runs *)

(** The bridge at location [0] loads the registry on its first access. *)
Lemma registry_is_loaded_once_witness :
  let σ' := (registry (Env := Mock.env) 0 (start (world_with []))).2 in
  cached_registry σ' 0 = Some ()
  ∧ registry (Env := Mock.env) 0 σ' = (Ok (), σ').
Proof.
  apply (registry_is_loaded_once (Env := Mock.env) 0 (start (world_with []))).
  apply pair_of_fst. reflexivity.
Defined.

(** [get_registry] raises on the first access, and is called again on the
    second. *)
Lemma registry_failure_is_not_cached_witness :
  let σ := start registry_down in
  let σ' := (registry (Env := Mock.env) 0 σ).2 in
  new_events σ σ'
  = [GetRegistryCall (Env := Mock.env) (Some "registry unavailable")]
  ∧ bridges σ' = bridges σ ∧ heap σ' = heap σ ∧ _bridge σ' = _bridge σ
  ∧ ∃ exc, new_events σ' (registry (Env := Mock.env) 0 σ').2
           = [GetRegistryCall (Env := Mock.env) exc].
Proof.
  apply (registry_failure_is_not_cached (Env := Mock.env) 0
           (start registry_down)).
  apply pair_of_fst. reflexivity.
Defined.

(** Two records: two more dictionaries in the store. *)
Lemma one_new_dictionary_per_record_witness :
  let result := mkFetchResult [mkRecord 0; mkRecord 1] in
  let σ1 := (acquire_series (world_with two_series)).2 in
  let σ' := (fetch_series (world_with two_series)).2 in
  dom (heap σ1) ⊆ dom (heap σ')
  ∧ size (dom (heap σ')) = size (dom (heap σ1)) + length (records result).
Proof.
  apply (one_new_dictionary_per_record (Env := Mock.env) 0 "fred_gdp" "fred"
           series ["series_id"; "date"] true ∅ (start (world_with two_series))
           (acquire_series (world_with two_series)).2
           (mkFetchResult [mkRecord 0; mkRecord 1])).
  apply pair_of_fst. reflexivity.
Defined.

Example two_series_store :
  dom (heap (fetch_series (world_with two_series)).2) = {[0; 1; 2; 3]}.
Proof. vm_compute. reflexivity. Qed.

(** Two fetches in one process: the registry is loaded by the first. *)
Example two_fetches_one_registry :
  filter (λ ev, is_get_registry ev)
    (new_events (start (world_with two_series))
       (run_calls (Env := Mock.env)
          [CallFetchData "fred_gdp" "fred" series [] true;
           CallFetchData "fred_gdp" "fred" series [] true]
          (start (world_with two_series))).2)
  = [GetRegistryCall (Env := Mock.env) None].
Proof. reflexivity. Qed.

(** The octave: the difference of the fundamentals is the cutoff itself,
    and it is retained. *)
Example octave_fundamental_at_cutoff :
  Thumbnail.delta_f_fund 2 = 200%float
  ∧ (Thumbnail.delta_f_fund 2 <=? 200)%float = true.
Proof. split; vm_compute; reflexivity. Qed.
